(** * Subscription auditor: entity resolution and eligibility scoring

    A shallow embedding of [src/src/subscription_manager.py]: the
    [Subscription] dataclass, the key normaliser
    [_generate_subscription_key], the keyed merge
    [_merge_subscription_data], the enrichment pass
    [_enrich_subscription_data] with its three derivations,
    [discover_subscriptions] which chains them,
    [identify_refund_opportunities] and the loop of
    [generate_refund_requests] around the refund-request collaborator.

    Modelling choices.
    - Python [str] is [string], read as a name of ASCII characters: on
      those [Str.lower] is [str.lower].  Python lowers other letters too,
      some by context; the statements that depend on it are made for
      [ascii_only] names, and [Uni] models the normaliser on code points
      for the names that also hold a Greek sigma, where the key of a name
      does depend on where a separator stands.
    - Python [float] is the kernel's binary64 [float]; [int] is [Z].
    - A [datetime] is a number of clock ticks ([Z]); [datetime.now()] reads
      a clock, passed explicitly as the sequence of its successive readings.
    - The raw records handed over by the two connectors are records with
      optional fields for the keys read through [dict.get] and plain
      fields for the keys read through [sub['...']].
    - The [merged] dict is an association list in insertion order, which is
      the order [list(merged.values())] enumerates. *)

From Stdlib Require Import String Ascii List ZArith Bool Lia.
From Stdlib Require Import Floats.PrimFloat.
Import ListNotations.

Set Warnings "-inexact-float".
Open Scope string_scope.
Open Scope Z_scope.

(** ** Strings *)

Module Str.

(** [c.lower()] on one ASCII character; a character above 127 is kept as
    it is, which is not what Python does for every one of them. *)
Definition lower_char (c : ascii) : ascii :=
  let n := nat_of_ascii c in
  if ((65 <=? n)%nat && (n <=? 90)%nat)%bool then ascii_of_nat (n + 32) else c.

(** [s.lower()] on a string of ASCII characters. *)
Fixpoint lower (s : string) : string :=
  match s with
  | EmptyString => EmptyString
  | String c s' => String (lower_char c) (lower s')
  end.

(** [s.replace(old, new)] for a pattern [old] of one character. *)
Fixpoint replace (old : ascii) (new : string) (s : string) : string :=
  match s with
  | EmptyString => EmptyString
  | String c s' =>
      if Ascii.eqb c old then new ++ replace old new s'
      else String c (replace old new s')
  end.

(** [w in s]: [w] occurs in [s] as a contiguous substring. *)
Fixpoint contains (w s : string) : bool :=
  match s with
  | EmptyString => String.prefix w EmptyString
  | String _ s' => String.prefix w s || contains w s'
  end.

End Str.

(** ** Data model *)

Definition datetime := Z.

(** The [Subscription] dataclass, field by field. *)
Record Subscription := mkSubscription {
  name : string;
  cost : float;
  billing_cycle : string;
  last_charged : datetime;
  vendor_email : string;
  cancellation_url : option string;
  phone_number : option string;
  usage_score : float;
  refund_eligible : bool;
  days_since_signup : Z;
  category : string
}.

(** [Subscription(name=..., cost=..., billing_cycle=..., last_charged=...,
    vendor_email=..., cancellation_url=..., days_since_signup=...)]: the
    constructor call with the dataclass defaults for the fields left out
    ([phone_number=None], [usage_score=0.0], [refund_eligible=False],
    [category="unknown"]). *)
Definition new_Subscription (n : string) (c : float) (bc : string)
    (lc : datetime) (ve : string) (cu : option string) (d : Z) : Subscription :=
  {| name := n; cost := c; billing_cycle := bc; last_charged := lc;
     vendor_email := ve; cancellation_url := cu; phone_number := None;
     usage_score := 0%float; refund_eligible := false;
     days_since_signup := d; category := "unknown" |}.

(** Attribute assignments [sub.f = v]. *)
Definition set_cost (v : float) (s : Subscription) : Subscription :=
  {| name := name s; cost := v; billing_cycle := billing_cycle s;
     last_charged := last_charged s; vendor_email := vendor_email s;
     cancellation_url := cancellation_url s; phone_number := phone_number s;
     usage_score := usage_score s; refund_eligible := refund_eligible s;
     days_since_signup := days_since_signup s; category := category s |}.

Definition set_last_charged (v : datetime) (s : Subscription) : Subscription :=
  {| name := name s; cost := cost s; billing_cycle := billing_cycle s;
     last_charged := v; vendor_email := vendor_email s;
     cancellation_url := cancellation_url s; phone_number := phone_number s;
     usage_score := usage_score s; refund_eligible := refund_eligible s;
     days_since_signup := days_since_signup s; category := category s |}.

Definition set_usage_score (v : float) (s : Subscription) : Subscription :=
  {| name := name s; cost := cost s; billing_cycle := billing_cycle s;
     last_charged := last_charged s; vendor_email := vendor_email s;
     cancellation_url := cancellation_url s; phone_number := phone_number s;
     usage_score := v; refund_eligible := refund_eligible s;
     days_since_signup := days_since_signup s; category := category s |}.

Definition set_refund_eligible (v : bool) (s : Subscription) : Subscription :=
  {| name := name s; cost := cost s; billing_cycle := billing_cycle s;
     last_charged := last_charged s; vendor_email := vendor_email s;
     cancellation_url := cancellation_url s; phone_number := phone_number s;
     usage_score := usage_score s; refund_eligible := v;
     days_since_signup := days_since_signup s; category := category s |}.

Definition set_category (v : string) (s : Subscription) : Subscription :=
  {| name := name s; cost := cost s; billing_cycle := billing_cycle s;
     last_charged := last_charged s; vendor_email := vendor_email s;
     cancellation_url := cancellation_url s; phone_number := phone_number s;
     usage_score := usage_score s; refund_eligible := refund_eligible s;
     days_since_signup := days_since_signup s; category := v |}.

(** A raw record of the inbox connector: [name] is read with [sub['name']],
    every other key with [sub.get].  A record may carry a [phone_number]
    key as well; the merge never reads it. *)
Record EmailRecord := mkEmailRecord {
  e_name : string;
  e_cost : option float;
  e_billing_cycle : option string;
  e_last_charged : option datetime;
  e_vendor_email : option string;
  e_cancellation_url : option string;
  e_days_since_signup : option Z;
  e_phone_number : option string
}.

(** A raw record of the statement connector: [name], [cost] and
    [last_charged] are all read with [sub['...']]; again a [phone_number]
    key may be present and is not read. *)
Record BankRecord := mkBankRecord {
  b_name : string;
  b_cost : float;
  b_last_charged : datetime;
  b_phone_number : option string
}.

(** [d.get(k, dflt)] on an optional key. *)
Definition get {A : Type} (v : option A) (dflt : A) : A :=
  match v with Some x => x | None => dflt end.

(** ** The [merged] dict *)

Module Dict.

Definition t := list (string * Subscription).

(** [key in d]. *)
Fixpoint mem (k : string) (d : t) : bool :=
  match d with
  | [] => false
  | (k', _) :: d' => String.eqb k k' || mem k d'
  end.

(** [d[key]] as a lookup. *)
Fixpoint lookup (k : string) (d : t) : option Subscription :=
  match d with
  | [] => None
  | (k', v) :: d' => if String.eqb k k' then Some v else lookup k d'
  end.

(** [d[key] = v]: an existing key keeps its place, a new key goes last. *)
Fixpoint set (k : string) (v : Subscription) (d : t) : t :=
  match d with
  | [] => [(k, v)]
  | (k', v') :: d' =>
      if String.eqb k k' then (k', v) :: d' else (k', v') :: set k v d'
  end.

(** [d[key].f = ...]: the object stored under [key] is updated in place. *)
Fixpoint update (k : string) (f : Subscription -> Subscription) (d : t) : t :=
  match d with
  | [] => []
  | (k', v') :: d' =>
      if String.eqb k k' then (k', f v') :: d' else (k', v') :: update k f d'
  end.

(** [d.keys()] and [d.values()]. *)
Definition keys (d : t) : list string := map fst d.
Definition values (d : t) : list Subscription := map snd d.

End Dict.

(** ** The manager's methods *)

(** [_generate_subscription_key]. *)
Definition _generate_subscription_key (name : string) : string :=
  Str.replace "_" "" (Str.replace "-" "" (Str.replace " " "" (Str.lower name))).

(** The clock behind [datetime.now()]: its [n]-th reading. *)
Definition clock := nat -> datetime.

(** One turn of the loop over [email_subs].  The default argument
    [datetime.now()] is evaluated at every turn, so [n], the number of
    readings taken so far, goes up by one each time. *)
Definition email_step (now : clock) (st : nat * Dict.t) (sub : EmailRecord)
    : nat * Dict.t :=
  let '(n, merged) := st in
  let key := _generate_subscription_key (e_name sub) in
  (S n,
   Dict.set key
     (new_Subscription (e_name sub)
        (get (e_cost sub) 0%float)
        (get (e_billing_cycle sub) "monthly")
        (get (e_last_charged sub) (now n))
        (get (e_vendor_email sub) "")
        (e_cancellation_url sub)
        (get (e_days_since_signup sub) 0))
     merged).

(** One turn of the loop over [bank_subs]. *)
Definition bank_step (merged : Dict.t) (sub : BankRecord) : Dict.t :=
  let key := _generate_subscription_key (b_name sub) in
  if Dict.mem key merged then
    Dict.update key (set_last_charged (b_last_charged sub))
      (Dict.update key (set_cost (b_cost sub)) merged)
  else
    Dict.set key
      (new_Subscription (b_name sub) (b_cost sub) "monthly"
         (b_last_charged sub) "" None 0)
      merged.

(** The dict after both loops. *)
Definition merged_dict (now : clock) (email_subs : list EmailRecord)
    (bank_subs : list BankRecord) : Dict.t :=
  fold_left bank_step bank_subs
    (snd (fold_left (email_step now) email_subs (0%nat, []))).

(** [_merge_subscription_data]. *)
Definition _merge_subscription_data (now : clock)
    (email_subs : list EmailRecord) (bank_subs : list BankRecord)
    : list Subscription :=
  Dict.values (merged_dict now email_subs bank_subs).

(** [_calculate_usage_score]. *)
Definition _calculate_usage_score (subscription : Subscription) : float :=
  if days_since_signup subscription <? 7 then 1%float
  else if days_since_signup subscription <? 30 then 3%float
  else 5%float.

(** [_is_refund_eligible]. *)
Definition _is_refund_eligible (subscription : Subscription) : bool :=
  (days_since_signup subscription <=? 30)
  && PrimFloat.ltb (usage_score subscription) 3%float
  && PrimFloat.ltb 10%float (cost subscription).

(** [any(word in name_lower for word in words)]. *)
Definition any_word_in (words : list string) (name_lower : string) : bool :=
  existsb (fun word => Str.contains word name_lower) words.

(** [_categorize_subscription]. *)
Definition _categorize_subscription (subscription : Subscription) : string :=
  let name_lower := Str.lower (name subscription) in
  if any_word_in ["netflix"; "hulu"; "disney"; "streaming"] name_lower then
    "entertainment"
  else if any_word_in ["adobe"; "canva"; "figma"; "design"] name_lower then
    "design_tools"
  else if any_word_in ["github"; "aws"; "hosting"; "domain"] name_lower then
    "development"
  else if any_word_in ["gym"; "fitness"; "health"] name_lower then
    "health_fitness"
  else "other".

(** The body of the loop of [_enrich_subscription_data]: three assignments
    in a row, each reading the object as the previous one left it. *)
Definition enrich_one (sub : Subscription) : Subscription :=
  let sub := set_usage_score (_calculate_usage_score sub) sub in
  let sub := set_refund_eligible (_is_refund_eligible sub) sub in
  set_category (_categorize_subscription sub) sub.

(** [_enrich_subscription_data] on [self.subscriptions]. *)
Definition _enrich_subscription_data (subscriptions : list Subscription)
    : list Subscription :=
  map enrich_one subscriptions.

(** [discover_subscriptions]; the two connectors' results are its inputs. *)
Definition discover_subscriptions (now : clock)
    (email_subscriptions : list EmailRecord)
    (bank_subscriptions : list BankRecord) : list Subscription :=
  _enrich_subscription_data
    (_merge_subscription_data now email_subscriptions bank_subscriptions).

(** [identify_refund_opportunities]. *)
Definition identify_refund_opportunities (subscriptions : list Subscription)
    : list Subscription :=
  filter refund_eligible subscriptions.

(** What [generate_refund_requests] writes through [logger.info] and
    [logger.error]. *)
Inductive log_line :=
| Info (msg : string)
| Error (msg : string).

(** The refund-request collaborator: [create_refund_request(subscription)]
    runs in a state [W] of its own and either returns a request or raises
    an [Exception], kept here as the text [str(e)]. *)
Definition refund_generator (W R : Type) : Type :=
  W -> Subscription -> W * (R + string).

(** The [for] loop of [generate_refund_requests] with its [try]/[except]:
    a request that is built is logged at level info, an exception is
    caught and logged at level error, and the loop goes on either way. *)
Fixpoint refund_loop {W R : Type} (create_refund_request : refund_generator W R)
    (refund_eligible : list Subscription) (w : W) (log : list log_line)
    : W * list log_line :=
  match refund_eligible with
  | [] => (w, log)
  | subscription :: rest =>
      let '(w', result) := create_refund_request w subscription in
      let line :=
        match result with
        | inl _ =>
            Info ("Generated refund request for " ++ name subscription)
        | inr e =>
            Error ("Failed to generate refund request for "
                   ++ name subscription ++ ": " ++ e)
        end in
      refund_loop create_refund_request rest w' (log ++ [line])%list
  end.

(** [generate_refund_requests] on [self.subscriptions]. *)
Definition generate_refund_requests {W R : Type}
    (create_refund_request : refund_generator W R)
    (subscriptions : list Subscription) (w : W) (log : list log_line)
    : W * list log_line :=
  refund_loop create_refund_request
    (filter refund_eligible subscriptions) w log.

(** ** The normaliser on names beyond ASCII

    [Str.lower] is Python's [str.lower] on names of ASCII characters.
    Python lowers the other cased letters too and lowers the Greek capital
    sigma by context.  The module below models line 91 on strings of code
    points for the names made of ASCII characters and the three sigmas
    (capital U+03A3, small U+03C3, final U+03C2); a name with any other
    code point is outside it and gives [None]. *)

Module Uni.

(** A Python string as the list of its code points. *)
Definition pystr := list N.

Definition supported (c : N) : bool :=
  ((c <? 128) || (c =? 931) || (c =? 962) || (c =? 963))%N%bool.

(** The Unicode properties Cased and Case_Ignorable on those code points:
    the letters, and the characters ' . : ^ ` . *)
Definition is_cased (c : N) : bool :=
  (((65 <=? c) && (c <=? 90)) || ((97 <=? c) && (c <=? 122))
   || (c =? 931) || (c =? 962) || (c =? 963))%N%bool.

Definition is_case_ignorable (c : N) : bool :=
  ((c =? 39) || (c =? 46) || (c =? 58) || (c =? 94) || (c =? 96))%N%bool.

Fixpoint skip_ignorable (s : pystr) : pystr :=
  match s with
  | [] => []
  | c :: rest => if is_case_ignorable c then skip_ignorable rest else s
  end.

(** The first character that is not case-ignorable exists and is cased. *)
Definition next_is_cased (s : pystr) : bool :=
  match skip_ignorable s with
  | [] => false
  | c :: _ => is_cased c
  end.

(** A capital sigma is lowered to the final sigma when a cased letter
    comes before it and none comes after it, case-ignorable characters
    skipped on both sides, and to the small sigma otherwise.  [before]
    holds the characters before the sigma, nearest first. *)
Definition lower_capital_sigma (before after : pystr) : N :=
  if (next_is_cased before && negb (next_is_cased after))%bool
  then 962%N else 963%N.

(** [c.lower()] for the other supported code points. *)
Definition lower_cp (c : N) : N :=
  if ((65 <=? c) && (c <=? 90))%N%bool then (c + 32)%N else c.

Fixpoint lower_from (before s : pystr) : pystr :=
  match s with
  | [] => []
  | c :: rest =>
      (if (c =? 931)%N then lower_capital_sigma before rest else lower_cp c)
      :: lower_from (c :: before) rest
  end.

(** [s.lower()]. *)
Definition lower_str (s : pystr) : option pystr :=
  if forallb supported s then Some (lower_from [] s) else None.

(** [s.replace(old, new)] for a pattern [old] of one character. *)
Fixpoint replace_cp (old : N) (new s : pystr) : pystr :=
  match s with
  | [] => []
  | c :: rest =>
      if (c =? old)%N then (new ++ replace_cp old new rest)%list
      else c :: replace_cp old new rest
  end.

(** [_generate_subscription_key] on such a name: space is 32, hyphen 45,
    underscore 95. *)
Definition key (name : pystr) : option pystr :=
  match lower_str name with
  | Some l => Some (replace_cp 95 [] (replace_cp 45 [] (replace_cp 32 [] l)))
  | None => None
  end.

(** The code points of a [string]. *)
Definition of_string (s : string) : pystr :=
  map N_of_ascii (list_ascii_of_string s).

End Uni.

(** ** Vocabulary of the specification *)

(** The order [a < b] on Python floats, as a proposition. *)
Definition flt (a b : float) : Prop := PrimFloat.ltb a b = true.

(** Upper-case letters, and two characters that are the same letter up to
    case: equal, or an upper-case letter and its lower-case form. *)
Definition is_upper (c : ascii) : Prop :=
  (65 <= nat_of_ascii c <= 90)%nat.

Definition same_letter (c1 c2 : ascii) : Prop :=
  c1 = c2
  \/ (is_upper c1 /\ nat_of_ascii c2 = (nat_of_ascii c1 + 32)%nat)
  \/ (is_upper c2 /\ nat_of_ascii c1 = (nat_of_ascii c2 + 32)%nat).

(** Two strings equal up to letter case. *)
Inductive eq_nocase : string -> string -> Prop :=
| eq_nocase_nil : eq_nocase "" ""
| eq_nocase_cons c1 c2 s1 s2 :
    same_letter c1 c2 -> eq_nocase s1 s2 ->
    eq_nocase (String c1 s1) (String c2 s2).

(** Case-insensitive substring match: some contiguous part of [s] equals
    [w] up to letter case. *)
Definition occurs_nocase (w s : string) : Prop :=
  exists pre mid post, s = pre ++ mid ++ post /\ eq_nocase mid w.

(** The keyword groups in their priority order. *)
Definition keyword_groups : list (string * list string) :=
  [ ("entertainment", ["netflix"; "hulu"; "disney"; "streaming"]);
    ("design_tools", ["adobe"; "canva"; "figma"; "design"]);
    ("development", ["github"; "aws"; "hosting"; "domain"]);
    ("health_fitness", ["gym"; "fitness"; "health"]) ].

(** First matching group wins, "other" when none matches. *)
Inductive classified (nm : string) : list (string * list string) -> string -> Prop :=
| classified_other : classified nm [] "other"
| classified_hit cat kws rest kw :
    In kw kws -> occurs_nocase kw nm ->
    classified nm ((cat, kws) :: rest) cat
| classified_skip cat kws rest c :
    (forall kw, In kw kws -> ~ occurs_nocase kw nm) ->
    classified nm rest c ->
    classified nm ((cat, kws) :: rest) c.

(** The [if]/[elif] chain of [_categorize_subscription] over a list of
    groups; used to reason about the chain one group at a time. *)
Fixpoint first_group (groups : list (string * list string))
    (name_lower : string) : string :=
  match groups with
  | [] => "other"
  | (cat, kws) :: rest =>
      if any_word_in kws name_lower then cat else first_group rest name_lower
  end.

(** The separators the normaliser removes, and two names that differ only
    in letter case or in where separators are placed. *)
Definition is_separator (c : ascii) : Prop :=
  c = " "%char \/ c = "-"%char \/ c = "_"%char.

Inductive same_identity : string -> string -> Prop :=
| same_identity_nil : same_identity "" ""
| same_identity_letter c1 c2 s1 s2 :
    same_letter c1 c2 -> same_identity s1 s2 ->
    same_identity (String c1 s1) (String c2 s2)
| same_identity_sep_l c s1 s2 :
    is_separator c -> same_identity s1 s2 -> same_identity (String c s1) s2
| same_identity_sep_r c s1 s2 :
    is_separator c -> same_identity s1 s2 -> same_identity s1 (String c s2).

(** The test the three [replace] calls apply between them to one
    character. *)
Definition is_sepb (c : ascii) : bool :=
  (Ascii.eqb c " " || Ascii.eqb c "-" || Ascii.eqb c "_")%bool.

(** The canonical key of an entity: the key of its [name]. *)
Definition key_of (s : Subscription) : string :=
  _generate_subscription_key (name s).

(** The canonical keys of the raw records of each source. *)
Definition email_keys (email_subs : list EmailRecord) : list string :=
  map (fun r => _generate_subscription_key (e_name r)) email_subs.

Definition bank_keys (bank_subs : list BankRecord) : list string :=
  map (fun r => _generate_subscription_key (b_name r)) bank_subs.

(** The entity the inbox loop builds from a record when the clock reads
    [t], and the one the bank loop builds for a key it has not seen. *)
Definition of_email (t : datetime) (sub : EmailRecord) : Subscription :=
  new_Subscription (e_name sub) (get (e_cost sub) 0%float)
    (get (e_billing_cycle sub) "monthly") (get (e_last_charged sub) t)
    (get (e_vendor_email sub) "") (e_cancellation_url sub)
    (get (e_days_since_signup sub) 0).

Definition of_bank (sub : BankRecord) : Subscription :=
  new_Subscription (b_name sub) (b_cost sub) "monthly" (b_last_charged sub)
    "" None 0.

(** A character a canonical key can hold: no separator, no upper-case
    letter. *)
Definition key_char (c : ascii) : Prop :=
  ~ is_separator c /\ ~ is_upper c.

(** The two assignments of the bank loop on an entity already stored. *)
Definition with_bank (sub : BankRecord) (v : Subscription) : Subscription :=
  set_last_charged (b_last_charged sub) (set_cost (b_cost sub) v).

(** The keys of a list in the order of their first occurrence. *)
Fixpoint first_occurrences (l : list string) : list string :=
  match l with
  | [] => []
  | k :: l' =>
      k :: filter (fun k' => negb (String.eqb k' k)) (first_occurrences l')
  end.

(** Two entities with the same fields apart from the derived ones
    ([usage_score], [refund_eligible], [category]). *)
Definition same_source (s s' : Subscription) : Prop :=
  name s = name s' /\ cost s = cost s'
  /\ billing_cycle s = billing_cycle s' /\ last_charged s = last_charged s'
  /\ vendor_email s = vendor_email s'
  /\ cancellation_url s = cancellation_url s'
  /\ phone_number s = phone_number s'
  /\ days_since_signup s = days_since_signup s'.


(** [key in d] read on the list of the dict's keys, and what storing
    under a key does to that list. *)
Definition inb (k : string) (l : list string) : bool :=
  existsb (String.eqb k) l.

Definition add_key (l : list string) (k : string) : list string :=
  if inb k l then l else (l ++ [k])%list.

(** Names of ASCII characters: those on which [Str.lower] is Python's
    [str.lower]. *)
Definition is_ascii (c : ascii) : Prop := (nat_of_ascii c < 128)%nat.

Definition ascii_only (s : string) : Prop :=
  Forall is_ascii (list_ascii_of_string s).



(** ** Sanity checks on concrete inputs *)

Example key_netflix :
  _generate_subscription_key "Net-Flix _HD" = "netflixhd".
Proof. reflexivity. Qed.

Example contains_ex :
  Str.contains "design" "github design pro" = true
  /\ Str.contains "" "" = true
  /\ Str.contains "gym" "gy m" = false.
Proof. repeat split; reflexivity. Qed.

Example float_cmp :
  PrimFloat.ltb 10%float 10.01%float = true
  /\ PrimFloat.ltb 10%float 10%float = false
  /\ PrimFloat.ltb 2.9%float 3%float = true.
Proof. repeat split; reflexivity. Qed.

(** ** Enrichment: usage score and refund eligibility *)

(** C3. Refund eligibility holds exactly when [days_since_signup <= 30],
    [usage_score < 3.0] and [cost > 10.0] all hold, for the predicate and
    for the flag enrichment stores on an entity.  At the boundary: an
    entity with 30 days, score 2.9 and cost 10.01 is eligible; the same
    with cost exactly 10.0 is not; the same with 31 days is not. *)
Theorem refund_eligibility_conjuncts :
  (forall s : Subscription,
      _is_refund_eligible s = true <->
      days_since_signup s <= 30 /\ flt (usage_score s) 3 /\ flt 10 (cost s))
  /\ (forall s : Subscription,
        let s' := enrich_one s in
        refund_eligible s' = true <->
        days_since_signup s' <= 30 /\ flt (usage_score s') 3
        /\ flt 10 (cost s'))
  /\ (forall n bc lc ve cu pn re cat,
        _is_refund_eligible
          (mkSubscription n 10.01 bc lc ve cu pn 2.9 re 30 cat) = true)
  /\ (forall n bc lc ve cu pn re cat,
        _is_refund_eligible
          (mkSubscription n 10 bc lc ve cu pn 2.9 re 30 cat) = false)
  /\ (forall n bc lc ve cu pn re cat,
        _is_refund_eligible
          (mkSubscription n 10.01 bc lc ve cu pn 2.9 re 31 cat) = false).
Proof.
  assert (forall s : Subscription,
             _is_refund_eligible s = true <->
             days_since_signup s <= 30 /\ flt (usage_score s) 3
             /\ flt 10 (cost s)) as Iff.
  { intros s. unfold _is_refund_eligible, flt.
    rewrite !andb_true_iff, Z.leb_le. tauto. }
  split; [exact Iff | split].
  - intros s s'.
    (* the flag is computed on the entity whose score was just stored *)
    exact (Iff (set_usage_score (_calculate_usage_score s) s)).
  - repeat split; intros; reflexivity.
Qed.

(** C4. The usage score is one of three values fixed by
    [days_since_signup] alone: 1.0 below 7 days, 3.0 from 7 to 29 days,
    5.0 from 30 days on; so 6 gives 1.0, 7 and 29 give 3.0, 30 gives 5.0. *)
Theorem usage_score_buckets :
  (forall s : Subscription,
      (days_since_signup s < 7 -> _calculate_usage_score s = 1%float)
      /\ (7 <= days_since_signup s < 30 -> _calculate_usage_score s = 3%float)
      /\ (30 <= days_since_signup s -> _calculate_usage_score s = 5%float))
  /\ (forall s s' : Subscription,
        days_since_signup s = days_since_signup s' ->
        _calculate_usage_score s = _calculate_usage_score s')
  /\ (forall n c bc lc ve cu pn us re cat,
        _calculate_usage_score (mkSubscription n c bc lc ve cu pn us re 6 cat)
          = 1%float
        /\ _calculate_usage_score (mkSubscription n c bc lc ve cu pn us re 7 cat)
          = 3%float
        /\ _calculate_usage_score (mkSubscription n c bc lc ve cu pn us re 29 cat)
          = 3%float
        /\ _calculate_usage_score (mkSubscription n c bc lc ve cu pn us re 30 cat)
          = 5%float).
Proof.
  split; [| split].
  - intros s. unfold _calculate_usage_score.
    destruct (Z.ltb_spec (days_since_signup s) 7);
      destruct (Z.ltb_spec (days_since_signup s) 30);
      repeat split; intros; solve [reflexivity | lia].
  - intros s s' E. unfold _calculate_usage_score. now rewrite E.
  - intros. repeat split; reflexivity.
Qed.

(** ** Strings: occurrences and letter case *)

Lemma append_nil_r (s : string) : s ++ "" = s.
Proof. induction s; simpl; congruence. Qed.

Lemma append_assoc (a b c : string) : (a ++ b) ++ c = a ++ b ++ c.
Proof. induction a; simpl; congruence. Qed.

Lemma prefix_iff (w s : string) :
  String.prefix w s = true <-> exists post, s = w ++ post.
Proof.
  revert s. induction w as [| a w IH]; intros s.
  - split; [intros _; now exists s | now destruct s].
  - destruct s as [| b s]; simpl.
    + split; [discriminate | intros [post H]; discriminate].
    + destruct (ascii_dec a b) as [-> | N].
      * rewrite IH. split; intros [post H]; exists post.
        -- now rewrite H.
        -- now injection H.
      * split; [discriminate |].
        intros [post H]. injection H as H1 _. now elim N.
Qed.

Lemma contains_iff (w s : string) :
  Str.contains w s = true <-> exists pre post, s = pre ++ w ++ post.
Proof.
  induction s as [| c s IH].
  - unfold Str.contains. rewrite prefix_iff. split.
    + intros [post H]. exists "", post. exact H.
    + intros [pre [post H]]. destruct pre; [now exists post | discriminate].
  - change (Str.contains w (String c s))
      with (String.prefix w (String c s) || Str.contains w s)%bool.
    rewrite orb_true_iff, prefix_iff, IH. split.
    + intros [[post H] | [pre [post H]]].
      * exists "", post. exact H.
      * exists (String c pre), post. simpl. now rewrite H.
    + intros [pre [post H]]. destruct pre as [| c' pre]; simpl in H.
      * left. now exists post.
      * right. injection H as _ H. now exists pre, post.
Qed.

Lemma lower_app (a b : string) :
  Str.lower (a ++ b) = Str.lower a ++ Str.lower b.
Proof. induction a; simpl; congruence. Qed.

Lemma lower_split (s a b : string) :
  Str.lower s = a ++ b ->
  exists a' b', s = a' ++ b' /\ Str.lower a' = a /\ Str.lower b' = b.
Proof.
  revert s. induction a as [| c a IH]; intros s H; simpl in H.
  - exists "", s. auto.
  - destruct s as [| d s]; [discriminate |]. simpl in H.
    injection H as Hc Hs. destruct (IH _ Hs) as [a' [b' [E [Ea Eb]]]].
    exists (String d a'), b'. simpl. subst. auto.
Qed.

Lemma nat_of_ascii_inj (c1 c2 : ascii) :
  nat_of_ascii c1 = nat_of_ascii c2 -> c1 = c2.
Proof.
  intros H. rewrite <- (ascii_nat_embedding c1), <- (ascii_nat_embedding c2).
  now rewrite H.
Qed.

Lemma same_letter_iff (c1 c2 : ascii) :
  same_letter c1 c2 <-> Str.lower_char c1 = Str.lower_char c2.
Proof.
  unfold same_letter, is_upper, Str.lower_char.
  pose proof (nat_ascii_bounded c1) as B1.
  pose proof (nat_ascii_bounded c2) as B2.
  destruct (Nat.leb_spec 65 (nat_of_ascii c1));
    destruct (Nat.leb_spec (nat_of_ascii c1) 90);
    destruct (Nat.leb_spec 65 (nat_of_ascii c2));
    destruct (Nat.leb_spec (nat_of_ascii c2) 90); simpl;
    (split;
     [ intros [-> | [[U E] | [U E]]]; try reflexivity; try lia;
       solve [ rewrite <- E; now rewrite ascii_nat_embedding
             | rewrite <- E; symmetry; now rewrite ascii_nat_embedding
             | lia ]
     | intros E;
       try (apply (f_equal nat_of_ascii) in E;
            rewrite ?nat_ascii_embedding in E by lia);
       first [ left; apply nat_of_ascii_inj; lia
             | right; left; split; lia
             | right; right; split; lia ] ]).
Qed.

Lemma eq_nocase_iff (a b : string) :
  eq_nocase a b <-> Str.lower a = Str.lower b.
Proof.
  split.
  - induction 1 as [| c1 c2 s1 s2 Hc _ IH]; simpl; [reflexivity |].
    apply same_letter_iff in Hc. congruence.
  - revert b. induction a as [| c a IH]; intros [| d b] H; simpl in H;
      try discriminate; [constructor |].
    injection H as Hc Hs. constructor; [now apply same_letter_iff | auto].
Qed.

(** A lower-case keyword occurs in [name.lower()] exactly when it occurs
    in [name] up to letter case. *)
Lemma contains_lower_iff (w nm : string) :
  Str.lower w = w ->
  (Str.contains w (Str.lower nm) = true <-> occurs_nocase w nm).
Proof.
  intros Hw. rewrite contains_iff. unfold occurs_nocase. split.
  - intros [pre [post H]].
    destruct (lower_split _ _ _ H) as [pre' [r [E [_ Er]]]].
    destruct (lower_split _ _ _ Er) as [mid [post' [E' [Em _]]]].
    exists pre', mid, post'. split; [congruence |].
    apply eq_nocase_iff. congruence.
  - intros [pre [mid [post [E H]]]]. apply eq_nocase_iff in H.
    exists (Str.lower pre), (Str.lower post).
    rewrite E, !lower_app. congruence.
Qed.

(** ** Categorisation *)

Lemma any_word_in_iff (kws : list string) (nm : string) :
  Forall (fun w => Str.lower w = w) kws ->
  (any_word_in kws (Str.lower nm) = true <->
   exists kw, In kw kws /\ occurs_nocase kw nm).
Proof.
  intros L. unfold any_word_in. rewrite existsb_exists.
  rewrite Forall_forall in L.
  split; intros [kw [I H]]; exists kw; split; auto;
    now apply (contains_lower_iff kw nm (L kw I)).
Qed.

Lemma categorize_unfold (s : Subscription) :
  _categorize_subscription s = first_group keyword_groups (Str.lower (name s)).
Proof. reflexivity. Qed.

Lemma classified_first_group (groups : list (string * list string))
    (nm c : string) :
  Forall (fun g => Forall (fun w => Str.lower w = w) (snd g)) groups ->
  (classified nm groups c <-> c = first_group groups (Str.lower nm)).
Proof.
  intros L. split.
  - intros H. induction H as [| cat kws rest kw I O | cat kws rest c N _ IH];
      simpl.
    + reflexivity.
    + inversion_clear L as [| ? ? Lk _]. simpl in Lk.
      replace (any_word_in kws (Str.lower nm)) with true; [reflexivity |].
      symmetry. apply any_word_in_iff; eauto.
    + inversion_clear L as [| ? ? Lk Lr]. simpl in Lk.
      destruct (any_word_in kws (Str.lower nm)) eqn:A; [| auto].
      apply any_word_in_iff in A; [| exact Lk].
      destruct A as [kw [I O]]. now elim (N kw I).
  - revert c. induction L as [| [cat kws] rest Lk Lr IH]; intros c ->; simpl.
    + constructor.
    + simpl in Lk. destruct (any_word_in kws (Str.lower nm)) eqn:A.
      * apply any_word_in_iff in A; [| exact Lk].
        destruct A as [kw [I O]]. eapply classified_hit; eauto.
      * apply classified_skip; [| now apply IH].
        intros kw I O.
        assert (any_word_in kws (Str.lower nm) = true) as A'
          by (apply any_word_in_iff; eauto).
        congruence.
Qed.

Lemma keyword_groups_lower :
  Forall (fun g => Forall (fun w => Str.lower w = w) (snd g)) keyword_groups.
Proof. repeat constructor. Qed.

(** C5. The category of an entity is the one picked by case-insensitive
    substring match of its name against the keyword groups taken in the
    order entertainment, design_tools, development, health_fitness, the
    first matching group winning and "other" standing for no match; the
    name "GitHub Design Pro" falls in design_tools. *)
Theorem categorize_priority_order :
  (forall (s : Subscription) (c : string),
      classified (name s) keyword_groups c <-> c = _categorize_subscription s)
  /\ (forall c bc lc ve cu pn us re d cat,
        _categorize_subscription
          (mkSubscription "GitHub Design Pro" c bc lc ve cu pn us re d cat)
        = "design_tools").
Proof.
  split.
  - intros s c. rewrite categorize_unfold.
    apply classified_first_group, keyword_groups_lower.
  - intros. reflexivity.
Qed.

(** ** The identity normaliser *)

Lemma key_cons (c : ascii) (s : string) :
  _generate_subscription_key (String c s) =
  if is_sepb (Str.lower_char c) then _generate_subscription_key s
  else String (Str.lower_char c) (_generate_subscription_key s).
Proof.
  unfold _generate_subscription_key, is_sepb. simpl.
  destruct (Ascii.eqb_spec (Str.lower_char c) " ") as [E1 | N1]; simpl.
  - reflexivity.
  - destruct (Ascii.eqb_spec (Str.lower_char c) "-") as [E2 | N2]; simpl.
    + reflexivity.
    + destruct (Ascii.eqb_spec (Str.lower_char c) "_"); reflexivity.
Qed.



(** Conversely, names with the same key differ only in letter case and
    separators: [same_identity] is exactly the relation the key decides. *)
Lemma separator_kept (c : ascii) :
  is_sepb (Str.lower_char c) = true -> is_separator c.
Proof.
  unfold is_sepb, is_separator, Str.lower_char.
  remember (nat_of_ascii c) as m eqn:Em.
  destruct (Nat.leb_spec 65 m); destruct (Nat.leb_spec m 90); simpl;
    rewrite !orb_true_iff, !Ascii.eqb_eq; try tauto.
  (* an upper-case letter is lowered to a letter, never to a separator *)
  intros [[E | E] | E]; apply (f_equal nat_of_ascii) in E;
    rewrite nat_ascii_embedding in E by lia;
    match type of E with
    | _ = ?r => let v := eval vm_compute in r in change r with v in E
    end; lia.
Qed.

Lemma same_identity_of_key (a b : string) :
  _generate_subscription_key a = _generate_subscription_key b ->
  same_identity a b.
Proof.
  revert b. induction a as [| c a IHa]; intros b.
  - induction b as [| d b IHb]; intros H; [constructor |].
    rewrite key_cons in H.
    destruct (is_sepb (Str.lower_char d)) eqn:S; [| discriminate].
    apply same_identity_sep_r; [now apply separator_kept | auto].
  - rewrite key_cons.
    destruct (is_sepb (Str.lower_char c)) eqn:Sc.
    + intros H. apply same_identity_sep_l; [now apply separator_kept | auto].
    + induction b as [| d b IHb]; intros H; [discriminate |].
      rewrite key_cons in H.
      destruct (is_sepb (Str.lower_char d)) eqn:Sd.
      * apply same_identity_sep_r; [now apply separator_kept | auto].
      * injection H as Hc Hk.
        apply same_identity_letter; [now apply same_letter_iff | auto].
Qed.

(** *** Agreement with the normaliser on code points *)

Lemma lower_cp_of_ascii (c : ascii) :
  Uni.lower_cp (N_of_ascii c) = N_of_ascii (Str.lower_char c).
Proof.
  unfold Uni.lower_cp, Str.lower_char, nat_of_ascii, ascii_of_nat.
  pose proof (N_ascii_bounded c) as B.
  remember (N_of_ascii c) as m eqn:Em.
  destruct (N.leb_spec 65 m); destruct (N.leb_spec m 90);
    destruct (Nat.leb_spec 65 (N.to_nat m));
    destruct (Nat.leb_spec (N.to_nat m) 90); simpl; try lia;
    try (subst m; reflexivity).
  rewrite N_ascii_embedding by lia. lia.
Qed.

Lemma is_ascii_code (c : ascii) : is_ascii c -> (N_of_ascii c < 128)%N.
Proof. unfold is_ascii, nat_of_ascii. lia. Qed.

Lemma lower_from_ascii (before : Uni.pystr) (s : string) :
  ascii_only s ->
  Uni.lower_from before (Uni.of_string s) = Uni.of_string (Str.lower s).
Proof.
  unfold ascii_only, Uni.of_string. revert before.
  induction s as [| c s IH]; intros before H; simpl; [reflexivity |].
  simpl in H. inversion_clear H as [| ? ? Hc Hs].
  apply is_ascii_code in Hc.
  destruct (N.eqb_spec (N_of_ascii c) 931) as [E | _]; [lia |].
  now rewrite lower_cp_of_ascii, IH.
Qed.

Lemma supported_ascii (s : string) :
  ascii_only s -> forallb Uni.supported (Uni.of_string s) = true.
Proof.
  unfold ascii_only, Uni.of_string.
  induction 1 as [| c l Hc _ IH]; simpl; [reflexivity |].
  rewrite IH, andb_true_r. apply is_ascii_code in Hc.
  unfold Uni.supported. now destruct (N.ltb_spec (N_of_ascii c) 128); [| lia].
Qed.

Lemma N_of_ascii_inj (c1 c2 : ascii) : N_of_ascii c1 = N_of_ascii c2 -> c1 = c2.
Proof.
  intros H. rewrite <- (ascii_N_embedding c1), <- (ascii_N_embedding c2).
  now rewrite H.
Qed.

Lemma replace_cp_of_string (old : ascii) (s : string) :
  Uni.replace_cp (N_of_ascii old) [] (Uni.of_string s)
  = Uni.of_string (Str.replace old "" s).
Proof.
  unfold Uni.of_string. induction s as [| c s IH]; simpl; [reflexivity |].
  destruct (Ascii.eqb_spec c old) as [-> | N].
  - rewrite N.eqb_refl. exact IH.
  - destruct (N.eqb_spec (N_of_ascii c) (N_of_ascii old)) as [E | _].
    + now apply N_of_ascii_inj in E.
    + simpl. now rewrite IH.
Qed.

(** On a name of ASCII characters the key computed on code points is the
    key computed by [_generate_subscription_key]. *)
Lemma key_on_ascii (nm : string) :
  ascii_only nm ->
  Uni.key (Uni.of_string nm)
  = Some (Uni.of_string (_generate_subscription_key nm)).
Proof.
  intros H. unfold Uni.key, Uni.lower_str, _generate_subscription_key.
  rewrite (supported_ascii nm H), (lower_from_ascii [] nm H).
  change 32%N with (N_of_ascii " "). change 45%N with (N_of_ascii "-").
  change 95%N with (N_of_ascii "_").
  now rewrite !replace_cp_of_string.
Qed.




(** ** The [merged] dict: lookups, keys and invariants *)

Section DictFacts.

Implicit Types (k : string) (v : Subscription) (d : Dict.t).

Lemma mem_In k d : Dict.mem k d = true <-> In k (Dict.keys d).
Proof.
  induction d as [| [k' v'] d IH]; simpl.
  - split; [discriminate | tauto].
  - rewrite orb_true_iff, IH, String.eqb_eq. intuition congruence.
Qed.

Lemma lookup_mem k d v : Dict.lookup k d = Some v -> Dict.mem k d = true.
Proof.
  induction d as [| [k' v'] d IH]; simpl; [discriminate |].
  destruct (String.eqb k k'); simpl; auto.
Qed.

Lemma keys_update k f d : Dict.keys (Dict.update k f d) = Dict.keys d.
Proof.
  induction d as [| [k' v'] d IH]; simpl; [reflexivity |].
  destruct (String.eqb k k'); simpl; [reflexivity | now rewrite IH].
Qed.

Lemma keys_set k v d :
  Dict.keys (Dict.set k v d) =
  if Dict.mem k d then Dict.keys d else (Dict.keys d ++ [k])%list.
Proof.
  induction d as [| [k' v'] d IH]; simpl; [reflexivity |].
  destruct (String.eqb k k'); simpl; [reflexivity |].
  rewrite IH. now destruct (Dict.mem k d).
Qed.

Lemma In_keys_set k v d k0 :
  In k0 (Dict.keys (Dict.set k v d)) <-> k0 = k \/ In k0 (Dict.keys d).
Proof.
  rewrite keys_set. destruct (Dict.mem k d) eqn:M.
  - apply mem_In in M. intuition congruence.
  - rewrite in_app_iff. simpl. intuition congruence.
Qed.

Lemma NoDup_keys_set k v d :
  NoDup (Dict.keys d) -> NoDup (Dict.keys (Dict.set k v d)).
Proof.
  intros N. rewrite keys_set. destruct (Dict.mem k d) eqn:M; [exact N |].
  assert (~ In k (Dict.keys d)) as NI.
  { intros I. apply mem_In in I. congruence. }
  clear M. induction N as [| x l Hx _ IH]; simpl.
  - constructor; [tauto | constructor].
  - simpl in NI. constructor; [| tauto].
    rewrite in_app_iff. simpl. intuition congruence.
Qed.

Lemma lookup_update_same k f d :
  Dict.lookup k (Dict.update k f d) = option_map f (Dict.lookup k d).
Proof.
  induction d as [| [k' v'] d IH]; simpl; [reflexivity |].
  destruct (String.eqb k k') eqn:E; simpl; rewrite E; auto.
Qed.

Lemma lookup_update_other k k0 f d :
  k0 <> k -> Dict.lookup k0 (Dict.update k f d) = Dict.lookup k0 d.
Proof.
  intros N. induction d as [| [k' v'] d IH]; simpl; [reflexivity |].
  destruct (String.eqb_spec k k') as [<- | N']; simpl; [| now rewrite IH].
  destruct (String.eqb_spec k0 k); [contradiction | reflexivity].
Qed.

(** A property of the entries survives a store of an entry that has it,
    and an in-place update that keeps it. *)
Lemma Forall_set (Q : string * Subscription -> Prop) k v d :
  Q (k, v) -> Forall Q d -> Forall Q (Dict.set k v d).
Proof.
  intros Hv. induction 1 as [| [k' v'] d Hx Hd IH]; simpl.
  - repeat constructor. exact Hv.
  - destruct (String.eqb_spec k k') as [<- | N]; constructor; auto.
Qed.

Lemma Forall_update (Q : string * Subscription -> Prop) k f d :
  (forall v, Q (k, v) -> Q (k, f v)) -> Forall Q d ->
  Forall Q (Dict.update k f d).
Proof.
  intros Hf. induction 1 as [| [k' v'] d Hx Hd IH]; simpl.
  - constructor.
  - destruct (String.eqb_spec k k') as [<- | N]; constructor; auto.
Qed.

End DictFacts.

(** ** Merging: what a bank record changes *)

(** C2. When the key of a bank record is already in the dict, the merge
    step rewrites [cost] and [last_charged] of the entity stored there with
    the bank values and leaves its name, billing cycle, vendor e-mail,
    cancellation URL, phone number and days since signup (and every other
    field, key and entry) as they were. *)
Theorem bank_overwrites_cost_and_date_only
    (merged : Dict.t) (sub : BankRecord) (e : Subscription) :
  Dict.lookup (_generate_subscription_key (b_name sub)) merged = Some e ->
  Dict.lookup (_generate_subscription_key (b_name sub)) (bank_step merged sub)
    = Some (mkSubscription (name e) (b_cost sub) (billing_cycle e)
              (b_last_charged sub) (vendor_email e) (cancellation_url e)
              (phone_number e) (usage_score e) (refund_eligible e)
              (days_since_signup e) (category e))
  /\ Dict.keys (bank_step merged sub) = Dict.keys merged
  /\ (forall k, k <> _generate_subscription_key (b_name sub) ->
        Dict.lookup k (bank_step merged sub) = Dict.lookup k merged).
Proof.
  intros L. unfold bank_step. rewrite (lookup_mem _ _ _ L).
  repeat split.
  - now rewrite !lookup_update_same, L.
  - now rewrite !keys_update.
  - intros k N. now rewrite !lookup_update_other.
Qed.

Lemma bank_overwrites_cost_and_date_only_witness :
  let foo := new_Subscription "Foo" 9.99 "yearly" 100 "a@b.com"
               (Some "https://foo.example/cancel") 12 in
  let sub := mkBankRecord "foo" 15 200 (Some "555-0100") in
  Dict.lookup "foo" (bank_step [("foo", foo)] sub)
    = Some (mkSubscription "Foo" 15 "yearly" 200 "a@b.com"
              (Some "https://foo.example/cancel") None 0 false 12 "unknown").
Proof.
  exact (proj1 (bank_overwrites_cost_and_date_only
                  [("foo", new_Subscription "Foo" 9.99 "yearly" 100 "a@b.com"
                             (Some "https://foo.example/cancel") 12)]
                  (mkBankRecord "foo" 15 200 (Some "555-0100")) _ eq_refl)).
Defined.

(** ** Merging: invariants of the two loops *)

Section MergeInvariant.

Variable now : clock.
Variable Q : string * Subscription -> Prop.
Variable email_subs : list EmailRecord.
Variable bank_subs : list BankRecord.

Hypothesis Q_email : forall r t,
  In r email_subs -> Q (_generate_subscription_key (e_name r), of_email t r).
Hypothesis Q_bank : forall r,
  In r bank_subs -> Q (_generate_subscription_key (b_name r), of_bank r).
Hypothesis Q_cost : forall k v c, Q (k, v) -> Q (k, set_cost c v).
Hypothesis Q_date : forall k v t, Q (k, v) -> Q (k, set_last_charged t v).

Lemma email_loop_Forall (l : list EmailRecord) (st : nat * Dict.t) :
  incl l email_subs -> Forall Q (snd st) ->
  Forall Q (snd (fold_left (email_step now) l st)).
Proof.
  revert st. induction l as [| r l IH]; intros [n d] I H; simpl; [exact H |].
  apply IH.
  - intros x Hx. apply I. now right.
  - simpl. apply Forall_set; [| exact H].
    apply (Q_email r (now n)). apply I. now left.
Qed.

Lemma bank_loop_Forall (l : list BankRecord) (d : Dict.t) :
  incl l bank_subs -> Forall Q d -> Forall Q (fold_left bank_step l d).
Proof.
  revert d. induction l as [| r l IH]; intros d I H; simpl; [exact H |].
  apply IH.
  - intros x Hx. apply I. now right.
  - unfold bank_step. destruct (Dict.mem _ d).
    + apply Forall_update; [intros; now apply Q_date |].
      apply Forall_update; [intros; now apply Q_cost | exact H].
    + apply Forall_set; [| exact H]. apply (Q_bank r). apply I. now left.
Qed.

Lemma merged_dict_Forall :
  Forall Q (merged_dict now email_subs bank_subs).
Proof.
  unfold merged_dict. apply bank_loop_Forall; [apply incl_refl |].
  apply email_loop_Forall; [apply incl_refl | constructor].
Qed.

End MergeInvariant.

(** Every entry of the dict sits under the key of its own name. *)
Lemma merged_dict_well_keyed now email_subs bank_subs :
  Forall (fun kv => fst kv = key_of (snd kv))
    (merged_dict now email_subs bank_subs).
Proof. apply merged_dict_Forall; intros; simpl in *; auto. Qed.

Lemma well_keyed_values (d : Dict.t) :
  Forall (fun kv => fst kv = key_of (snd kv)) d ->
  map key_of (Dict.values d) = Dict.keys d.
Proof.
  unfold Dict.values, Dict.keys.
  induction 1 as [| [k v] d Hk _ IH]; simpl; [reflexivity |].
  simpl in Hk. f_equal; [now symmetry | exact IH].
Qed.

Lemma email_loop_keys now (l : list EmailRecord) (st : nat * Dict.t) :
  let d' := snd (fold_left (email_step now) l st) in
  (NoDup (Dict.keys (snd st)) -> NoDup (Dict.keys d'))
  /\ (forall k, In k (Dict.keys d') <->
                In k (Dict.keys (snd st)) \/ In k (email_keys l)).
Proof.
  revert st. induction l as [| r l IH]; intros [n d]; simpl.
  - split; [auto | intros k; tauto].
  - destruct (IH (email_step now (n, d) r)) as [IH1 IH2]. simpl in IH1, IH2.
    split.
    + intros N. apply IH1. now apply NoDup_keys_set.
    + intros k. rewrite IH2, In_keys_set. intuition congruence.
Qed.

Lemma bank_step_keys (d : Dict.t) (r : BankRecord) :
  (NoDup (Dict.keys d) -> NoDup (Dict.keys (bank_step d r)))
  /\ (forall k, In k (Dict.keys (bank_step d r)) <->
                k = _generate_subscription_key (b_name r) \/ In k (Dict.keys d)).
Proof.
  unfold bank_step. destruct (Dict.mem _ d) eqn:M.
  - rewrite !keys_update. apply mem_In in M.
    split; [auto | intros k; intuition congruence].
  - split; [apply NoDup_keys_set | intros k; apply In_keys_set].
Qed.

Lemma bank_loop_keys (l : list BankRecord) (d : Dict.t) :
  let d' := fold_left bank_step l d in
  (NoDup (Dict.keys d) -> NoDup (Dict.keys d'))
  /\ (forall k, In k (Dict.keys d') <->
                In k (Dict.keys d) \/ In k (bank_keys l)).
Proof.
  revert d. induction l as [| r l IH]; intros d; simpl.
  - split; [auto | intros k; tauto].
  - destruct (IH (bank_step d r)) as [IH1 IH2]. simpl in IH1, IH2.
    destruct (bank_step_keys d r) as [B1 B2].
    split.
    + intros N. auto.
    + intros k. rewrite IH2, B2. intuition congruence.
Qed.

Lemma merged_dict_keys now email_subs bank_subs :
  NoDup (Dict.keys (merged_dict now email_subs bank_subs))
  /\ (forall k, In k (Dict.keys (merged_dict now email_subs bank_subs)) <->
                In k (email_keys email_subs) \/ In k (bank_keys bank_subs)).
Proof.
  unfold merged_dict.
  destruct (email_loop_keys now email_subs (0%nat, [])) as [E1 E2].
  destruct (bank_loop_keys bank_subs
              (snd (fold_left (email_step now) email_subs (0%nat, []))))
    as [B1 B2].
  simpl in *. split.
  - apply B1, E1. constructor.
  - intros k. rewrite B2, E2. tauto.
Qed.

Lemma NoDup_map_eq {A B : Type} (f : A -> B) (l : list A) (a b : A) :
  NoDup (map f l) -> In a l -> In b l -> f a = f b -> a = b.
Proof.
  induction l as [| x l IH]; simpl; [tauto |].
  intros N Ia Ib E. inversion_clear N as [| ? ? Nx Nl].
  destruct Ia as [-> | Ia], Ib as [-> | Ib]; auto.
  - elim Nx. rewrite E. now apply in_map.
  - elim Nx. rewrite <- E. now apply in_map.
Qed.

Lemma merge_keys now email_subs bank_subs :
  map key_of (_merge_subscription_data now email_subs bank_subs)
  = Dict.keys (merged_dict now email_subs bank_subs).
Proof. apply well_keyed_values, merged_dict_well_keyed. Qed.

(** ** Merging: determinism, key uniqueness, untouched fields *)

Lemma email_loop_clock now1 now2 (l : list EmailRecord) (st : nat * Dict.t) :
  Forall (fun r => e_last_charged r <> None) l ->
  fold_left (email_step now1) l st = fold_left (email_step now2) l st.
Proof.
  intros H. revert st.
  induction H as [| r l Hr _ IH]; intros [n d]; simpl; [reflexivity |].
  rewrite <- IH. do 2 f_equal.
  destruct (e_last_charged r); [reflexivity | congruence].
Qed.

(** C7. The merge is a function of its two input sequences: when every
    inbox record carries its own [last_charged], so that no reading of the
    clock ends up in the result, two runs on the same sequences give the
    same entities in the same order, whatever the clock reads. *)
Theorem merge_deterministic (now1 now2 : clock)
    (email_subs : list EmailRecord) (bank_subs : list BankRecord) :
  Forall (fun r => e_last_charged r <> None) email_subs ->
  _merge_subscription_data now1 email_subs bank_subs
  = _merge_subscription_data now2 email_subs bank_subs.
Proof.
  intros H. unfold _merge_subscription_data, merged_dict.
  now rewrite (email_loop_clock now1 now2 email_subs _ H).
Qed.

Lemma merge_deterministic_witness :
  let email_subs :=
    [ mkEmailRecord "Netflix" (Some 15.99%float) None (Some 40) None None
        (Some 5) None;
      mkEmailRecord "Adobe CC" None (Some "yearly") (Some 41) None None
        None None ] in
  let bank_subs := [ mkBankRecord "netflix" 17.99 50 None ] in
  _merge_subscription_data (fun _ => 0) email_subs bank_subs
  = _merge_subscription_data (fun n => 1000 + Z.of_nat n) email_subs bank_subs.
Proof.
  apply (merge_deterministic (fun _ => 0) (fun n => 1000 + Z.of_nat n)).
  repeat constructor; simpl; discriminate.
Defined.

(** C8. Canonical keys are unique in the merge output: no two output
    entities have the same key, the partial entities of either source that
    share a key end in exactly one output entity, and every distinct key
    of the input gives an entity of its own, so the output has as many
    entities as the input has distinct keys. *)
Theorem canonical_key_unique (now : clock)
    (email_subs : list EmailRecord) (bank_subs : list BankRecord) :
  let out := _merge_subscription_data now email_subs bank_subs in
  let input_keys := (email_keys email_subs ++ bank_keys bank_subs)%list in
  NoDup (map key_of out)
  /\ (forall k, In k input_keys ->
        exists s, In s out /\ key_of s = k
                  /\ (forall s', In s' out -> key_of s' = k -> s' = s))
  /\ (forall s, In s out -> In (key_of s) input_keys)
  /\ length out = length (nodup string_dec input_keys).
Proof.
  intros out input_keys.
  destruct (merged_dict_keys now email_subs bank_subs) as [N K].
  pose proof (merge_keys now email_subs bank_subs) as E.
  fold out in E. rewrite <- E in N, K.
  assert (forall k, In k (map key_of out) <-> In k input_keys) as K'.
  { intros k. unfold input_keys. rewrite in_app_iff. apply K. }
  repeat split.
  - exact N.
  - intros k Hk. apply K' in Hk. apply in_map_iff in Hk.
    destruct Hk as [s [Es Is]]. exists s. repeat split; auto.
    intros s' Is' Es'. apply (NoDup_map_eq key_of out); congruence.
  - intros s Is. apply K'. now apply in_map.
  - rewrite <- (length_map key_of out). apply Nat.le_antisymm.
    + apply NoDup_incl_length; [exact N |].
      intros k Hk. apply nodup_In. now apply K'.
    + apply NoDup_incl_length; [apply NoDup_nodup |].
      intros k Hk. apply nodup_In in Hk. now apply K'.
Qed.

(** C9. No entity of the merge output has a phone number: whatever the
    raw records carry, the merge reads no such key and the field keeps the
    dataclass default [None]. *)
Theorem merge_phone_number_none (now : clock)
    (email_subs : list EmailRecord) (bank_subs : list BankRecord) :
  Forall (fun s => phone_number s = None)
    (_merge_subscription_data now email_subs bank_subs).
Proof.
  unfold _merge_subscription_data, Dict.values. apply Forall_map.
  apply (merged_dict_Forall now (fun kv => phone_number (snd kv) = None));
    intros; simpl in *; auto.
Qed.

(** ** Discovery: merge, then enrichment *)

Lemma enrich_one_fields (s : Subscription) :
  name (enrich_one s) = name s
  /\ cost (enrich_one s) = cost s
  /\ days_since_signup (enrich_one s) = days_since_signup s
  /\ usage_score (enrich_one s) = _calculate_usage_score s
  /\ refund_eligible (enrich_one s)
     = _is_refund_eligible (set_usage_score (_calculate_usage_score s) s).
Proof. repeat split. Qed.

(** An entity of the merge output either has the key of an inbox record or
    still has the [days_since_signup] the bank loop built it with. *)
Lemma merged_dict_bank_only now email_subs bank_subs :
  Forall (fun kv => fst kv = key_of (snd kv)
                    /\ (In (fst kv) (email_keys email_subs)
                        \/ days_since_signup (snd kv) = 0))
    (merged_dict now email_subs bank_subs).
Proof.
  apply merged_dict_Forall; simpl.
  - intros r t I. split; [reflexivity |]. left.
    unfold email_keys. now apply (in_map (fun r => _ (e_name r))).
  - intros r _. split; [reflexivity | now right].
  - intros k v c H. exact H.
  - intros k v t H. exact H.
Qed.

(** C10. An entity of the discovery output whose key is the key of no
    inbox record was built from bank records alone: its
    [days_since_signup] is the default 0, its usage score is 1.0, and it
    is refund-eligible exactly when its cost is above 10.0. *)
Theorem bank_only_entity (now : clock)
    (email_subs : list EmailRecord) (bank_subs : list BankRecord)
    (s : Subscription) :
  In s (discover_subscriptions now email_subs bank_subs) ->
  (forall r, In r email_subs ->
             _generate_subscription_key (e_name r) <> key_of s) ->
  days_since_signup s = 0
  /\ usage_score s = 1%float
  /\ (refund_eligible s = true <-> flt 10 (cost s)).
Proof.
  intros I NE. unfold discover_subscriptions, _enrich_subscription_data in I.
  apply in_map_iff in I. destruct I as [s0 [<- I]].
  unfold _merge_subscription_data, Dict.values in I.
  apply in_map_iff in I. destruct I as [[k v] [E I]]. simpl in E. subst v.
  pose proof (merged_dict_bank_only now email_subs bank_subs) as H.
  rewrite Forall_forall in H. destruct (H _ I) as [Hk Hd]. simpl in Hk, Hd.
  destruct (enrich_one_fields s0) as [En [Ec [Ed [Eu Er]]]].
  assert (days_since_signup s0 = 0) as D.
  { destruct Hd as [Hin | Hd]; [| exact Hd].
    unfold email_keys in Hin. apply in_map_iff in Hin.
    destruct Hin as [r [Hr Ir]]. elim (NE r Ir).
    unfold key_of. rewrite En. fold (key_of s0). congruence. }
  assert (_calculate_usage_score s0 = 1%float) as U.
  { unfold _calculate_usage_score. now rewrite D. }
  rewrite Ed, Eu, Er, Ec, U. repeat split; auto.
  - unfold _is_refund_eligible, flt. simpl. rewrite D. simpl.
    now intros H'.
  - unfold _is_refund_eligible, flt. simpl. rewrite D. simpl.
    now intros H'.
Qed.

Lemma bank_only_entity_witness :
  let s := mkSubscription "Gym Plus" 12.5 "monthly" 77 "" None None 1 true 0
             "health_fitness" in
  days_since_signup s = 0
  /\ usage_score s = 1%float
  /\ (refund_eligible s = true <-> flt 10 (cost s)).
Proof.
  apply (bank_only_entity (fun _ => 0)
           [ mkEmailRecord "Netflix" (Some 15.99%float) None None None None
               (Some 5) None ]
           [ mkBankRecord "Gym Plus" 12.5 77 None ]).
  - right. left. reflexivity.
  - intros r [<- | []]. vm_compute. discriminate.
Defined.

(** C1. The end-to-end scenario: one inbox record for "Netflix" at 15.99
    with 5 days since signup (its [last_charged] given or left to the
    clock) and one bank record for "netflix" at 15.99 charged at [T2]
    yield exactly one entity, with usage score 1.0, category
    "entertainment", cost 15.99, [last_charged] equal to [T2] and the
    refund flag set. *)
Theorem end_to_end_netflix (now : clock) (lc : option datetime)
    (T2 : datetime) :
  discover_subscriptions now
    [ mkEmailRecord "Netflix" (Some 15.99%float) None lc None None (Some 5)
        None ]
    [ mkBankRecord "netflix" 15.99 T2 None ]
  = [ mkSubscription "Netflix" 15.99 "monthly" T2 "" None None 1 true 5
        "entertainment" ].
Proof.
  unfold discover_subscriptions.
  (* the merge: the bank record meets the key "netflix" of the inbox one *)
  replace (_merge_subscription_data now _ _)
    with [ mkSubscription "Netflix" 15.99 "monthly" T2 "" None None 0 false 5
             "unknown" ]
    by (destruct lc; reflexivity).
  (* the enrichment of that one entity *)
  unfold _enrich_subscription_data, enrich_one. simpl map.
  replace (_calculate_usage_score _) with 1%float by reflexivity.
  replace (_is_refund_eligible _) with true by reflexivity.
  replace (_categorize_subscription _) with "entertainment" by reflexivity.
  reflexivity.
Qed.

Example merge_ignores_raw_phone_number :
  _merge_subscription_data (fun _ => 0)
    [ mkEmailRecord "Hulu" None None None None None None (Some "555-0100") ]
    [ mkBankRecord "Canva" 12 3 (Some "555-0199") ]
  = [ new_Subscription "Hulu" 0 "monthly" 0 "" None 0;
      new_Subscription "Canva" 12 "monthly" 3 "" None 0 ].
Proof. reflexivity. Qed.

Example merge_keeps_insertion_order :
  map name
    (_merge_subscription_data (fun _ => 0)
       [ mkEmailRecord "Net flix" None None None None None None None;
         mkEmailRecord "Hulu" None None None None None None None;
         mkEmailRecord "NETFLIX" None None None None None None None ]
       [ mkBankRecord "hu-lu" 8 1 None; mkBankRecord "AWS" 30 2 None ])
  = [ "NETFLIX"; "Hulu"; "AWS" ].
Proof. reflexivity. Qed.

(** ** The identity normaliser: keys are normal forms *)

Lemma lower_char_not_upper (c : ascii) : ~ is_upper (Str.lower_char c).
Proof.
  unfold is_upper, Str.lower_char.
  pose proof (nat_ascii_bounded c) as B.
  remember (nat_of_ascii c) as m eqn:Em.
  destruct (Nat.leb_spec 65 m); destruct (Nat.leb_spec m 90); simpl;
    rewrite <- ?Em; try lia.
  rewrite nat_ascii_embedding by lia. lia.
Qed.

Lemma lower_char_idem (c : ascii) :
  Str.lower_char (Str.lower_char c) = Str.lower_char c.
Proof.
  pose proof (lower_char_not_upper c) as N. unfold is_upper in N.
  unfold Str.lower_char at 1.
  destruct (Nat.leb_spec 65 (nat_of_ascii (Str.lower_char c)));
    destruct (Nat.leb_spec (nat_of_ascii (Str.lower_char c)) 90); simpl;
    solve [reflexivity | lia].
Qed.

Lemma is_sepb_false (c : ascii) : is_sepb c = false -> ~ is_separator c.
Proof.
  unfold is_sepb, is_separator. rewrite !orb_false_iff, !Ascii.eqb_neq. tauto.
Qed.

Lemma lower_char_ascii (c : ascii) : is_ascii c -> is_ascii (Str.lower_char c).
Proof.
  unfold is_ascii, Str.lower_char.
  remember (nat_of_ascii c) as m eqn:Em.
  destruct (Nat.leb_spec 65 m); destruct (Nat.leb_spec m 90); simpl;
    rewrite <- ?Em; try lia.
  rewrite nat_ascii_embedding by lia. lia.
Qed.

Lemma ascii_only_cons (c : ascii) (s : string) :
  ascii_only (String c s) <-> is_ascii c /\ ascii_only s.
Proof.
  unfold ascii_only. simpl. split.
  - intros H. now inversion_clear H.
  - intros [Hc Hs]. now constructor.
Qed.

Lemma ascii_only_app (a b : string) :
  ascii_only a -> ascii_only b -> ascii_only (a ++ b).
Proof.
  intros Ha Hb. induction a as [| c a IH]; [exact Hb |].
  apply ascii_only_cons in Ha. destruct Ha as [Hc Ha].
  change (String c a ++ b) with (String c (a ++ b)).
  apply ascii_only_cons. auto.
Qed.

Lemma key_ascii_only (nm : string) :
  ascii_only nm -> ascii_only (_generate_subscription_key nm).
Proof.
  induction nm as [| c nm IH]; intros H; [exact H |].
  apply ascii_only_cons in H. destruct H as [Hc H].
  rewrite key_cons. destruct (is_sepb (Str.lower_char c)); [auto |].
  apply ascii_only_cons. split; [now apply lower_char_ascii | auto].
Qed.

Lemma key_idempotent_model (nm : string) :
  _generate_subscription_key (_generate_subscription_key nm)
  = _generate_subscription_key nm.
Proof.
  induction nm as [| c nm IH]; [reflexivity |].
  rewrite key_cons. destruct (is_sepb (Str.lower_char c)) eqn:S; [exact IH |].
  now rewrite key_cons, lower_char_idem, S, IH.
Qed.

Lemma key_app_model (a b : string) :
  _generate_subscription_key (a ++ b)
  = _generate_subscription_key a ++ _generate_subscription_key b.
Proof.
  induction a as [| c a IH]; [reflexivity |].
  change (String c a ++ b) with (String c (a ++ b)).
  rewrite !key_cons, IH. now destruct (is_sepb (Str.lower_char c)).
Qed.

Lemma of_string_app (a b : string) :
  Uni.of_string (a ++ b) = (Uni.of_string a ++ Uni.of_string b)%list.
Proof.
  unfold Uni.of_string. induction a as [| c a IH]; simpl; [reflexivity |].
  now rewrite IH.
Qed.

Lemma of_string_length (s : string) :
  length (Uni.of_string s) = String.length s.
Proof.
  unfold Uni.of_string. induction s as [| c s IH]; simpl; [reflexivity |].
  now rewrite IH.
Qed.

(** X1. On names of ASCII characters the normaliser is idempotent: the
    key of such a name is again made of ASCII characters and is its own
    key, in the normaliser of this file and in the one on code points. *)
Theorem key_idempotent (nm : string) :
  ascii_only nm ->
  _generate_subscription_key (_generate_subscription_key nm)
  = _generate_subscription_key nm
  /\ exists k, Uni.key (Uni.of_string nm) = Some k /\ Uni.key k = Some k.
Proof.
  intros H. split; [apply key_idempotent_model |].
  exists (Uni.of_string (_generate_subscription_key nm)).
  split; [now apply key_on_ascii |].
  rewrite (key_on_ascii _ (key_ascii_only nm H)).
  now rewrite key_idempotent_model.
Qed.

Lemma key_idempotent_witness :
  _generate_subscription_key (_generate_subscription_key "Disney +_Plus-HD")
  = _generate_subscription_key "Disney +_Plus-HD"
  /\ exists k, Uni.key (Uni.of_string "Disney +_Plus-HD") = Some k
               /\ Uni.key k = Some k.
Proof.
  apply (key_idempotent "Disney +_Plus-HD").
  repeat constructor; vm_compute; lia.
Defined.

(** X2. On names of ASCII characters the normaliser works character by
    character: the key of a concatenation is the concatenation of the
    keys, in the normaliser of this file and in the one on code points. *)
Theorem key_app (a b : string) :
  ascii_only a -> ascii_only b ->
  _generate_subscription_key (a ++ b)
  = _generate_subscription_key a ++ _generate_subscription_key b
  /\ exists ka kb,
       Uni.key (Uni.of_string a) = Some ka
       /\ Uni.key (Uni.of_string b) = Some kb
       /\ Uni.key (Uni.of_string a ++ Uni.of_string b)%list
          = Some (ka ++ kb)%list.
Proof.
  intros Ha Hb. split; [apply key_app_model |].
  exists (Uni.of_string (_generate_subscription_key a)),
         (Uni.of_string (_generate_subscription_key b)).
  rewrite <- !of_string_app, <- key_app_model.
  repeat split; apply key_on_ascii; auto using ascii_only_app.
Qed.

Lemma key_app_witness :
  _generate_subscription_key ("Adobe " ++ "Creative-Cloud")
  = _generate_subscription_key "Adobe "
    ++ _generate_subscription_key "Creative-Cloud"
  /\ exists ka kb,
       Uni.key (Uni.of_string "Adobe ") = Some ka
       /\ Uni.key (Uni.of_string "Creative-Cloud") = Some kb
       /\ Uni.key (Uni.of_string "Adobe "
                   ++ Uni.of_string "Creative-Cloud")%list
          = Some (ka ++ kb)%list.
Proof.
  apply (key_app "Adobe " "Creative-Cloud");
    repeat constructor; vm_compute; lia.
Defined.

(** X3. The key of a name of ASCII characters holds no space, hyphen or
    underscore and no upper-case letter, and has at most as many
    characters as the name, also as counted on code points. *)
Theorem key_normal_form (nm : string) :
  ascii_only nm ->
  Forall key_char (list_ascii_of_string (_generate_subscription_key nm))
  /\ (String.length (_generate_subscription_key nm) <= String.length nm)%nat
  /\ exists k, Uni.key (Uni.of_string nm) = Some k
               /\ (length k <= length (Uni.of_string nm))%nat.
Proof.
  intros H.
  assert (Forall key_char
            (list_ascii_of_string (_generate_subscription_key nm))
          /\ (String.length (_generate_subscription_key nm)
              <= String.length nm)%nat) as [F L].
  { clear H.
    induction nm as [| c nm [IH1 IH2]]; [split; [constructor | reflexivity] |].
    rewrite key_cons. destruct (is_sepb (Str.lower_char c)) eqn:S; simpl.
    - split; [exact IH1 | lia].
    - split; [| lia]. constructor; [| exact IH1].
      split; [now apply is_sepb_false | apply lower_char_not_upper]. }
  repeat split; [exact F | exact L |].
  exists (Uni.of_string (_generate_subscription_key nm)).
  split; [now apply key_on_ascii |]. now rewrite !of_string_length.
Qed.

Lemma key_normal_form_witness :
  Forall key_char (list_ascii_of_string (_generate_subscription_key "AWS - S3"))
  /\ (String.length (_generate_subscription_key "AWS - S3")
      <= String.length "AWS - S3")%nat
  /\ exists k, Uni.key (Uni.of_string "AWS - S3") = Some k
               /\ (length k <= length (Uni.of_string "AWS - S3"))%nat.
Proof.
  apply (key_normal_form "AWS - S3").
  repeat constructor; vm_compute; lia.
Defined.

(** ** Merging: the entity stored under one key *)

Lemma lookup_set_same (k : string) (v : Subscription) (d : Dict.t) :
  Dict.lookup k (Dict.set k v d) = Some v.
Proof.
  induction d as [| [k' v'] d IH]; simpl.
  - now rewrite String.eqb_refl.
  - destruct (String.eqb k k') eqn:E; simpl; rewrite E; auto.
Qed.

Lemma lookup_set_other (k k0 : string) (v : Subscription) (d : Dict.t) :
  k0 <> k -> Dict.lookup k0 (Dict.set k v d) = Dict.lookup k0 d.
Proof.
  intros N. induction d as [| [k' v'] d IH]; simpl.
  - destruct (String.eqb_spec k0 k); [contradiction | reflexivity].
  - destruct (String.eqb_spec k k') as [<- | N']; simpl; [| now rewrite IH].
    destruct (String.eqb_spec k0 k); [contradiction | reflexivity].
Qed.

Lemma lookup_None_mem (k : string) (d : Dict.t) :
  Dict.lookup k d = None -> Dict.mem k d = false.
Proof.
  induction d as [| [k' v'] d IH]; simpl; [reflexivity |].
  destruct (String.eqb k k'); simpl; [discriminate | exact IH].
Qed.

(** The entities of a well-keyed dict that have a given key. *)
Lemma values_with_key_absent (k : string) (d : Dict.t) :
  Forall (fun kv => fst kv = key_of (snd kv)) d ->
  ~ In k (Dict.keys d) ->
  filter (fun s => String.eqb (key_of s) k) (Dict.values d) = [].
Proof.
  induction 1 as [| [k' v'] d Hk _ IH]; simpl; [reflexivity |].
  simpl in Hk. intros N. rewrite <- Hk.
  destruct (String.eqb_spec k' k) as [-> | _]; [tauto |].
  apply IH. tauto.
Qed.

Lemma values_with_key (k : string) (v : Subscription) (d : Dict.t) :
  Forall (fun kv => fst kv = key_of (snd kv)) d ->
  NoDup (Dict.keys d) ->
  Dict.lookup k d = Some v ->
  filter (fun s => String.eqb (key_of s) k) (Dict.values d) = [v].
Proof.
  induction 1 as [| [k' v'] d Hk Hd IH]; simpl; [discriminate |].
  simpl in Hk. intros N L. inversion_clear N as [| ? ? N1 N2].
  rewrite <- Hk. rewrite (String.eqb_sym k' k).
  destruct (String.eqb_spec k k') as [<- | _].
  - injection L as <-. f_equal. now apply values_with_key_absent.
  - auto.
Qed.

Lemma merge_with_key now email_subs bank_subs (k : string) (v : Subscription) :
  Dict.lookup k (merged_dict now email_subs bank_subs) = Some v ->
  filter (fun s => String.eqb (key_of s) k)
    (_merge_subscription_data now email_subs bank_subs) = [v].
Proof.
  apply values_with_key;
    [apply merged_dict_well_keyed | apply merged_dict_keys].
Qed.

Lemma email_loop_count now (l : list EmailRecord) (st : nat * Dict.t) :
  fst (fold_left (email_step now) l st) = (fst st + length l)%nat.
Proof.
  revert st. induction l as [| r l IH]; intros [n d]; simpl; [lia |].
  rewrite IH. simpl. lia.
Qed.

Lemma email_loop_other now (k : string) (l : list EmailRecord)
    (st : nat * Dict.t) :
  Forall (fun r => _generate_subscription_key (e_name r) <> k) l ->
  Dict.lookup k (snd (fold_left (email_step now) l st))
  = Dict.lookup k (snd st).
Proof.
  intros H. revert st.
  induction H as [| r l Hr _ IH]; intros [n d]; simpl; [reflexivity |].
  rewrite IH. simpl. apply lookup_set_other. congruence.
Qed.

(** The inbox loop leaves under a key what its last record with that key
    built, at the clock reading of that record's turn. *)
Lemma email_loop_last now (e1 e2 : list EmailRecord) (re : EmailRecord) :
  Forall (fun r => _generate_subscription_key (e_name r)
                   <> _generate_subscription_key (e_name re)) e2 ->
  Dict.lookup (_generate_subscription_key (e_name re))
    (snd (fold_left (email_step now) (e1 ++ re :: e2)%list (0%nat, [])))
  = Some (of_email (now (length e1)) re).
Proof.
  intros H. rewrite fold_left_app. simpl fold_left at 1.
  rewrite (email_loop_other now _ e2 _ H).
  pose proof (email_loop_count now e1 (0%nat, [])) as C. simpl in C.
  destruct (fold_left (email_step now) e1 (0%nat, [])) as [n d].
  simpl in *. subst n. apply lookup_set_same.
Qed.

Lemma bank_step_other (k : string) (d : Dict.t) (r : BankRecord) :
  _generate_subscription_key (b_name r) <> k ->
  Dict.lookup k (bank_step d r) = Dict.lookup k d.
Proof.
  intros N. unfold bank_step. destruct (Dict.mem _ d).
  - rewrite !lookup_update_other; congruence.
  - apply lookup_set_other. congruence.
Qed.

Lemma bank_step_stored (d : Dict.t) (r : BankRecord) (v : Subscription) :
  Dict.lookup (_generate_subscription_key (b_name r)) d = Some v ->
  Dict.lookup (_generate_subscription_key (b_name r)) (bank_step d r)
  = Some (with_bank r v).
Proof.
  intros L. unfold bank_step. rewrite (lookup_mem _ _ _ L).
  now rewrite !lookup_update_same, L.
Qed.

Lemma bank_step_new (d : Dict.t) (r : BankRecord) :
  Dict.lookup (_generate_subscription_key (b_name r)) d = None ->
  Dict.lookup (_generate_subscription_key (b_name r)) (bank_step d r)
  = Some (of_bank r).
Proof.
  intros L. unfold bank_step. rewrite (lookup_None_mem _ _ L).
  apply lookup_set_same.
Qed.

Lemma bank_loop_other (k : string) (l : list BankRecord) (d : Dict.t) :
  Forall (fun r => _generate_subscription_key (b_name r) <> k) l ->
  Dict.lookup k (fold_left bank_step l d) = Dict.lookup k d.
Proof.
  intros H. revert d.
  induction H as [| r l Hr _ IH]; intros d; simpl; [reflexivity |].
  rewrite IH. now apply bank_step_other.
Qed.

Lemma with_bank_absorb (r r' : BankRecord) (v : Subscription) :
  with_bank r (with_bank r' v) = with_bank r v.
Proof. reflexivity. Qed.

(** Whatever bank records come first, an entity stored under a key ends
    with the cost and date of the last bank record with that key. *)
Lemma bank_loop_stored (k : string) (l : list BankRecord) (d : Dict.t)
    (v : Subscription) :
  Dict.lookup k d = Some v ->
  exists v', Dict.lookup k (fold_left bank_step l d) = Some v'
             /\ forall r, with_bank r v' = with_bank r v.
Proof.
  revert d v. induction l as [| r l IH]; intros d v L; simpl.
  - now exists v.
  - destruct (String.eqb_spec (_generate_subscription_key (b_name r)) k)
      as [E | N].
    + subst k. destruct (IH _ _ (bank_step_stored d r v L)) as [v' [L' W]].
      exists v'. split; [exact L' |]. intros r0. now rewrite W.
    + apply IH. now rewrite bank_step_other.
Qed.

Lemma bank_loop_last (m l3 : list BankRecord) (rb : BankRecord) (d : Dict.t)
    (v : Subscription) :
  Dict.lookup (_generate_subscription_key (b_name rb)) d = Some v ->
  Forall (fun r => _generate_subscription_key (b_name r)
                   <> _generate_subscription_key (b_name rb)) l3 ->
  Dict.lookup (_generate_subscription_key (b_name rb))
    (fold_left bank_step (m ++ rb :: l3)%list d)
  = Some (with_bank rb v).
Proof.
  intros L H. rewrite fold_left_app. simpl.
  rewrite (bank_loop_other _ l3 _ H).
  destruct (bank_loop_stored _ m d v L) as [v' [L' W]].
  now rewrite (bank_step_stored _ rb v' L'), W.
Qed.

(** X4. Among inbox records with the same key the last one wins
    wholesale: when no bank record has that key, the output holds exactly
    one entity under it, built from the last such inbox record alone, with
    the defaults for the keys it lacks and, for a missing [last_charged],
    the clock reading taken at that record's turn. *)
Theorem inbox_last_record_wins (now : clock)
    (e1 e2 : list EmailRecord) (re : EmailRecord) (bank_subs : list BankRecord) :
  Forall (fun r => _generate_subscription_key (e_name r)
                   <> _generate_subscription_key (e_name re)) e2 ->
  Forall (fun r => _generate_subscription_key (b_name r)
                   <> _generate_subscription_key (e_name re)) bank_subs ->
  filter (fun s => String.eqb (key_of s)
                     (_generate_subscription_key (e_name re)))
    (_merge_subscription_data now (e1 ++ re :: e2)%list bank_subs)
  = [ new_Subscription (e_name re) (get (e_cost re) 0%float)
        (get (e_billing_cycle re) "monthly")
        (get (e_last_charged re) (now (length e1)))
        (get (e_vendor_email re) "") (e_cancellation_url re)
        (get (e_days_since_signup re) 0) ].
Proof.
  intros He Hb. apply merge_with_key. unfold merged_dict.
  rewrite (bank_loop_other _ bank_subs _ Hb).
  exact (email_loop_last now e1 e2 re He).
Qed.

Lemma inbox_last_record_wins_witness :
  filter (fun s => String.eqb (key_of s) "netflix")
    (_merge_subscription_data (fun n => 100 + Z.of_nat n)
       [ mkEmailRecord "Netflix" (Some 15.99%float) (Some "yearly") (Some 7)
           (Some "billing@netflix.com") None (Some 40) None;
         mkEmailRecord "NET-FLIX" None None None None None None None;
         mkEmailRecord "Hulu" None None None None None None None ]
       [ mkBankRecord "hulu" 8 3 None ])
  = [ new_Subscription "NET-FLIX" 0 "monthly" 101 "" None 0 ].
Proof.
  apply (inbox_last_record_wins (fun n => 100 + Z.of_nat n)
           [ mkEmailRecord "Netflix" (Some 15.99%float) (Some "yearly")
               (Some 7) (Some "billing@netflix.com") None (Some 40) None ]
           [ mkEmailRecord "Hulu" None None None None None None None ]
           (mkEmailRecord "NET-FLIX" None None None None None None None)
           [ mkBankRecord "hulu" 8 3 None ]);
    repeat constructor; vm_compute; discriminate.
Defined.

(** X5. A key that only bank records have gives exactly one entity: its
    name is that of the first bank record with the key, its cost and
    [last_charged] are those of the last one, and the rest is forced
    (monthly cycle, empty vendor e-mail, no URL, 0 days since signup). *)
Theorem bank_only_first_name_last_cost (now : clock)
    (email_subs : list EmailRecord)
    (l1 l2 m l3 : list BankRecord) (r1 r2 : BankRecord) :
  Forall (fun r => _generate_subscription_key (e_name r)
                   <> _generate_subscription_key (b_name r1)) email_subs ->
  Forall (fun r => _generate_subscription_key (b_name r)
                   <> _generate_subscription_key (b_name r1)) l1 ->
  (r1 :: l2 = m ++ r2 :: l3)%list ->
  _generate_subscription_key (b_name r2)
  = _generate_subscription_key (b_name r1) ->
  Forall (fun r => _generate_subscription_key (b_name r)
                   <> _generate_subscription_key (b_name r1)) l3 ->
  filter (fun s => String.eqb (key_of s)
                     (_generate_subscription_key (b_name r1)))
    (_merge_subscription_data now email_subs (l1 ++ r1 :: l2)%list)
  = [ new_Subscription (b_name r1) (b_cost r2) "monthly"
        (b_last_charged r2) "" None 0 ].
Proof.
  intros He H1 D K H3. apply merge_with_key. unfold merged_dict.
  set (d0 := snd (fold_left (email_step now) email_subs (0%nat, []))).
  assert (Dict.lookup (_generate_subscription_key (b_name r1)) d0 = None)
    as L0 by (unfold d0; now rewrite (email_loop_other now _ _ _ He)).
  rewrite fold_left_app. simpl fold_left at 1.
  set (d1 := fold_left bank_step l1 d0).
  assert (Dict.lookup (_generate_subscription_key (b_name r1)) d1 = None)
    as L1 by (unfold d1; now rewrite (bank_loop_other _ l1 _ H1)).
  pose proof (bank_step_new d1 r1 L1) as L2.
  destruct m as [| r m'].
  - (* the first record with the key is also the last *)
    injection D as -> ->.
    now rewrite (bank_loop_other _ l3 _ H3), L2.
  - injection D as <- ->. rewrite <- K in L2, H3.
    rewrite <- K. now rewrite (bank_loop_last m' l3 r2 _ _ L2 H3).
Qed.

Lemma bank_only_first_name_last_cost_witness :
  filter (fun s => String.eqb (key_of s) "gymplus")
    (_merge_subscription_data (fun _ => 0)
       [ mkEmailRecord "Netflix" None None None None None None None ]
       [ mkBankRecord "netflix" 15.99 1 None;
         mkBankRecord "GYM PLUS" 30 2 None;
         mkBankRecord "Gym-Plus" 35 3 None;
         mkBankRecord "gym_plus" 40 4 None;
         mkBankRecord "AWS" 12 5 None ])
  = [ new_Subscription "GYM PLUS" 40 "monthly" 4 "" None 0 ].
Proof.
  apply (bank_only_first_name_last_cost (fun _ => 0)
           [ mkEmailRecord "Netflix" None None None None None None None ]
           [ mkBankRecord "netflix" 15.99 1 None ]
           [ mkBankRecord "Gym-Plus" 35 3 None;
             mkBankRecord "gym_plus" 40 4 None;
             mkBankRecord "AWS" 12 5 None ]
           [ mkBankRecord "GYM PLUS" 30 2 None;
             mkBankRecord "Gym-Plus" 35 3 None ]
           [ mkBankRecord "AWS" 12 5 None ]
           (mkBankRecord "GYM PLUS" 30 2 None)
           (mkBankRecord "gym_plus" 40 4 None));
    try reflexivity; repeat constructor; vm_compute; discriminate.
Defined.

(** X6. A key that both sources have gives exactly one entity: name,
    billing cycle, vendor e-mail, cancellation URL and days since signup
    come from the last inbox record with the key, cost and [last_charged]
    from the last bank record with the key, however many records of
    either source share it. *)
Theorem inbox_identity_bank_money (now : clock)
    (e1 e2 : list EmailRecord) (re : EmailRecord)
    (m l3 : list BankRecord) (rb : BankRecord) :
  Forall (fun r => _generate_subscription_key (e_name r)
                   <> _generate_subscription_key (e_name re)) e2 ->
  _generate_subscription_key (b_name rb)
  = _generate_subscription_key (e_name re) ->
  Forall (fun r => _generate_subscription_key (b_name r)
                   <> _generate_subscription_key (e_name re)) l3 ->
  filter (fun s => String.eqb (key_of s)
                     (_generate_subscription_key (e_name re)))
    (_merge_subscription_data now (e1 ++ re :: e2)%list (m ++ rb :: l3)%list)
  = [ new_Subscription (e_name re) (b_cost rb)
        (get (e_billing_cycle re) "monthly") (b_last_charged rb)
        (get (e_vendor_email re) "") (e_cancellation_url re)
        (get (e_days_since_signup re) 0) ].
Proof.
  intros He K H3. apply merge_with_key. unfold merged_dict.
  pose proof (email_loop_last now e1 e2 re He) as L.
  rewrite <- K in L, H3. rewrite <- K.
  now rewrite (bank_loop_last m l3 rb _ _ L H3).
Qed.

Lemma inbox_identity_bank_money_witness :
  filter (fun s => String.eqb (key_of s) "foo")
    (_merge_subscription_data (fun _ => 0)
       [ mkEmailRecord "foo" None None None None None None None;
         mkEmailRecord "Foo" (Some 9.99%float) (Some "yearly") (Some 5)
           (Some "a@b.com") (Some "https://foo.example/cancel") (Some 12)
           None ]
       [ mkBankRecord "FOO" 14 20 None;
         mkBankRecord "f-o-o" 15 21 None;
         mkBankRecord "bar" 3 22 None ])
  = [ new_Subscription "Foo" 15 "yearly" 21 "a@b.com"
        (Some "https://foo.example/cancel") 12 ].
Proof.
  apply (inbox_identity_bank_money (fun _ => 0)
           [ mkEmailRecord "foo" None None None None None None None ]
           []
           (mkEmailRecord "Foo" (Some 9.99%float) (Some "yearly") (Some 5)
              (Some "a@b.com") (Some "https://foo.example/cancel") (Some 12)
              None)
           [ mkBankRecord "FOO" 14 20 None ]
           [ mkBankRecord "bar" 3 22 None ]
           (mkBankRecord "f-o-o" 15 21 None));
    try reflexivity; repeat constructor; vm_compute; discriminate.
Defined.

(** ** Merging: the order of the output *)

Lemma mem_inb (k : string) (d : Dict.t) : Dict.mem k d = inb k (Dict.keys d).
Proof.
  unfold inb. induction d as [| [k' v'] d IH]; simpl; [reflexivity |].
  now rewrite IH.
Qed.

Lemma email_loop_add_keys now (l : list EmailRecord) (st : nat * Dict.t) :
  Dict.keys (snd (fold_left (email_step now) l st))
  = fold_left add_key (email_keys l) (Dict.keys (snd st)).
Proof.
  revert st. induction l as [| r l IH]; intros [n d]; simpl; [reflexivity |].
  rewrite IH. simpl. f_equal. rewrite keys_set, mem_inb. reflexivity.
Qed.

Lemma bank_loop_add_keys (l : list BankRecord) (d : Dict.t) :
  Dict.keys (fold_left bank_step l d)
  = fold_left add_key (bank_keys l) (Dict.keys d).
Proof.
  revert d. induction l as [| r l IH]; intros d; simpl; [reflexivity |].
  rewrite IH. f_equal. unfold bank_step, add_key. rewrite <- mem_inb.
  destruct (Dict.mem _ d) eqn:M.
  - now rewrite !keys_update.
  - now rewrite keys_set, M.
Qed.

Lemma filter_filter {A : Type} (f g : A -> bool) (l : list A) :
  filter f (filter g l) = filter (fun x => g x && f x) l.
Proof.
  induction l as [| x l IH]; simpl; [reflexivity |].
  destruct (g x); simpl; [destruct (f x) |]; now rewrite IH.
Qed.

Lemma inb_app (k : string) (l l' : list string) :
  inb k (l ++ l') = inb k l || inb k l'.
Proof. unfold inb. apply existsb_app. Qed.

Lemma fold_add_key (ks acc : list string) :
  fold_left add_key ks acc
  = (acc ++ filter (fun k => negb (inb k acc)) (first_occurrences ks))%list.
Proof.
  revert acc. induction ks as [| k ks IH]; intros acc; simpl.
  - now rewrite app_nil_r.
  - rewrite IH. unfold add_key. rewrite filter_filter.
    destruct (inb k acc) eqn:E; simpl.
    + f_equal. apply filter_ext. intros k'.
      destruct (String.eqb_spec k' k) as [-> | _]; simpl; [now rewrite E |].
      reflexivity.
    + rewrite <- app_assoc. simpl. do 2 f_equal. apply filter_ext. intros k'.
      rewrite inb_app. unfold inb at 2. simpl.
      rewrite orb_false_r, negb_orb. apply andb_comm.
Qed.

Lemma merged_dict_order now email_subs bank_subs :
  Dict.keys (merged_dict now email_subs bank_subs)
  = first_occurrences (email_keys email_subs ++ bank_keys bank_subs).
Proof.
  unfold merged_dict.
  rewrite bank_loop_add_keys, email_loop_add_keys. simpl.
  rewrite <- fold_left_app, fold_add_key. simpl.
  induction (first_occurrences _) as [| x l IH]; simpl; congruence.
Qed.

Lemma enrich_keys (l : list Subscription) :
  map key_of (_enrich_subscription_data l) = map key_of l.
Proof.
  unfold _enrich_subscription_data. rewrite map_map. reflexivity.
Qed.

(** X7. The output lists one entity per key in the order in which the
    keys first appear, inbox records before bank records; a later record
    with a known key never moves its entity.  Enrichment keeps that
    order, so the same holds for the result of discovery. *)
Theorem output_in_first_appearance_order (now : clock)
    (email_subs : list EmailRecord) (bank_subs : list BankRecord) :
  map key_of (_merge_subscription_data now email_subs bank_subs)
  = first_occurrences (email_keys email_subs ++ bank_keys bank_subs)
  /\ map key_of (discover_subscriptions now email_subs bank_subs)
     = first_occurrences (email_keys email_subs ++ bank_keys bank_subs).
Proof.
  assert (map key_of (_merge_subscription_data now email_subs bank_subs)
          = first_occurrences (email_keys email_subs ++ bank_keys bank_subs))
    as H by (rewrite merge_keys; apply merged_dict_order).
  split; [exact H |].
  unfold discover_subscriptions. now rewrite enrich_keys.
Qed.

Example first_occurrences_ex :
  first_occurrences ["b"; "a"; "b"; "c"; "a"] = ["b"; "a"; "c"].
Proof. reflexivity. Qed.

(** ** Merging: which clock readings matter *)

Lemma email_loop_clock_at now1 now2 (l : list EmailRecord)
    (st : nat * Dict.t) :
  (forall i r, nth_error l i = Some r -> e_last_charged r = None ->
               now1 (fst st + i)%nat = now2 (fst st + i)%nat) ->
  fold_left (email_step now1) l st = fold_left (email_step now2) l st.
Proof.
  revert st. induction l as [| r l IH]; intros [n d] H; simpl;
    [reflexivity |].
  simpl in H. rewrite <- IH.
  - do 2 f_equal. destruct (e_last_charged r) eqn:E; [reflexivity |].
    simpl. specialize (H 0%nat r eq_refl E).
    rewrite Nat.add_0_r in H. now rewrite H.
  - intros i r' Hi Hr. simpl.
    specialize (H (S i) r' Hi Hr). now rewrite Nat.add_succ_r in H.
Qed.

(** X8. The merge takes one clock reading per inbox record and uses the
    [i]-th reading only for the [i]-th inbox record, and only when that
    record has no [last_charged]: two clocks that agree on those readings
    give the same output. *)
Theorem merge_reads_clock_for_missing_dates (now1 now2 : clock)
    (email_subs : list EmailRecord) (bank_subs : list BankRecord) :
  (forall i r, nth_error email_subs i = Some r ->
               e_last_charged r = None -> now1 i = now2 i) ->
  _merge_subscription_data now1 email_subs bank_subs
  = _merge_subscription_data now2 email_subs bank_subs.
Proof.
  intros H. unfold _merge_subscription_data, merged_dict.
  now rewrite (email_loop_clock_at now1 now2 email_subs (0%nat, [])).
Qed.

Lemma merge_reads_clock_for_missing_dates_witness :
  let email_subs :=
    [ mkEmailRecord "Netflix" None None (Some 40) None None None None;
      mkEmailRecord "Hulu" None None None None None None None ] in
  _merge_subscription_data (fun n => 7 * Z.of_nat n) email_subs []
  = _merge_subscription_data (fun n => if Nat.eqb n 1 then 7 else 99)
      email_subs [].
Proof.
  apply (merge_reads_clock_for_missing_dates
           (fun n => 7 * Z.of_nat n) (fun n => if Nat.eqb n 1 then 7 else 99)).
  intros [| [| [| i]]] r; simpl; intros Hr E;
    solve [reflexivity | discriminate
          | injection Hr as <-; discriminate E].
Defined.

(** ** Enrichment: what the derived fields depend on *)

Lemma enrich_one_same_source (s s' : Subscription) :
  same_source s s' -> enrich_one s = enrich_one s'.
Proof.
  destruct s, s'. unfold same_source. simpl.
  intros [-> [-> [-> [-> [-> [-> [-> ->]]]]]]]. reflexivity.
Qed.

Lemma enrich_one_source (s : Subscription) : same_source (enrich_one s) s.
Proof. repeat split. Qed.

(** X9. Enrichment recomputes the three derived fields from name, cost
    and days since signup and reads none of their previous values: the
    refund flag is computed from the score stored in the same pass.  Two
    lists of entities that agree on every other field are enriched to the
    same list. *)
Theorem enrich_ignores_stale_derived_fields (l l' : list Subscription) :
  Forall2 same_source l l' ->
  _enrich_subscription_data l = _enrich_subscription_data l'.
Proof.
  induction 1 as [| s s' l l' Hs _ IH]; simpl; [reflexivity |].
  now rewrite (enrich_one_same_source s s' Hs), IH.
Qed.

Lemma enrich_ignores_stale_derived_fields_witness :
  _enrich_subscription_data
    [ mkSubscription "Canva Pro" 12.99 "monthly" 3 "" None None 9.5 false 4
        "unknown" ]
  = _enrich_subscription_data
      [ mkSubscription "Canva Pro" 12.99 "monthly" 3 "" None None 0 true 4
          "entertainment" ].
Proof.
  apply enrich_ignores_stale_derived_fields.
  repeat constructor.
Defined.

(** X10. Enrichment is idempotent: enriching an enriched list changes
    nothing. *)
Theorem enrich_idempotent (l : list Subscription) :
  _enrich_subscription_data (_enrich_subscription_data l)
  = _enrich_subscription_data l.
Proof.
  unfold _enrich_subscription_data. rewrite map_map.
  apply map_ext. intros s.
  apply enrich_one_same_source, enrich_one_source.
Qed.

Lemma usage_score_cases (s : Subscription) :
  (days_since_signup s < 7 /\ _calculate_usage_score s = 1%float)
  \/ (7 <= days_since_signup s
      /\ (_calculate_usage_score s = 3%float
          \/ _calculate_usage_score s = 5%float)).
Proof.
  unfold _calculate_usage_score.
  destruct (Z.ltb_spec (days_since_signup s) 7); [left; auto |].
  right. split; [assumption |].
  destruct (days_since_signup s <? 30); auto.
Qed.

(** X11. After enrichment every entity has a usage score of 1.0, 3.0 or
    5.0 and one of the five categories: the dataclass defaults 0.0 and
    "unknown" do not survive it. *)
Theorem enrich_ranges (l : list Subscription) :
  Forall (fun s =>
            (usage_score s = 1%float \/ usage_score s = 3%float
             \/ usage_score s = 5%float)
            /\ In (category s)
                 ["entertainment"; "design_tools"; "development";
                  "health_fitness"; "other"])
    (_enrich_subscription_data l).
Proof.
  unfold _enrich_subscription_data. apply Forall_map, Forall_forall.
  intros s _. split.
  - change (usage_score (enrich_one s)) with (_calculate_usage_score s).
    destruct (usage_score_cases s) as [[_ ->] | [_ [-> | ->]]]; auto.
  - change (category (enrich_one s))
      with (_categorize_subscription
              (set_refund_eligible
                 (_is_refund_eligible
                    (set_usage_score (_calculate_usage_score s) s))
                 (set_usage_score (_calculate_usage_score s) s))).
    unfold _categorize_subscription.
    repeat match goal with
           | |- context [if ?b then _ else _] => destruct b
           end; simpl; tauto.
Qed.

Lemma enrich_one_flag (s : Subscription) :
  refund_eligible (enrich_one s) = true <->
  days_since_signup s < 7 /\ flt 10 (cost s).
Proof.
  change (refund_eligible (enrich_one s))
    with (_is_refund_eligible (set_usage_score (_calculate_usage_score s) s)).
  unfold _is_refund_eligible, flt. simpl.
  rewrite !andb_true_iff, Z.leb_le.
  destruct (usage_score_cases s) as [[D ->] | [D [-> | ->]]].
  - intuition lia.
  - split; [intros [[_ F] _]; discriminate F | lia].
  - split; [intros [[_ F] _]; discriminate F | lia].
Qed.

(** X12. The refund opportunities among enriched entities are exactly
    those signed up less than 7 days ago with a cost above 10.0: the test
    on 30 days never decides, and an entity of 7 days or more is never
    eligible whatever it costs. *)
Theorem refund_opportunities_characterised (l : list Subscription)
    (s : Subscription) :
  In s (identify_refund_opportunities (_enrich_subscription_data l)) <->
  In s (_enrich_subscription_data l)
  /\ days_since_signup s < 7 /\ flt 10 (cost s).
Proof.
  unfold identify_refund_opportunities. rewrite filter_In.
  split; intros [I H]; (split; [exact I |]);
    unfold _enrich_subscription_data in I; apply in_map_iff in I;
    destruct I as [s0 [<- _]]; now apply (enrich_one_flag s0).
Qed.

(** ** Refund requests *)


Lemma refund_loop_state {W R : Type} (create : refund_generator W R)
    (l : list Subscription) (w : W) (log : list log_line) :
  fst (refund_loop create l w log)
  = fold_left (fun w s => fst (create w s)) l w.
Proof.
  revert w log. induction l as [| s l IH]; intros w log; simpl;
    [reflexivity |].
  destruct (create w s) as [w' result]. apply IH.
Qed.






(** X14. A failed request never stops the loop: the generator is called
    once on every refund-eligible subscription, in order, each call
    starting from the state the previous one left, whether that one
    returned a request or raised; it is never called on a subscription
    that is not eligible, and what is in the log plays no part. *)
Theorem refund_requests_failures_isolated {W R : Type}
    (create : refund_generator W R) (subscriptions : list Subscription)
    (w : W) (log : list log_line) :
  fst (generate_refund_requests create subscriptions w log)
  = fold_left (fun w s => fst (create w s))
      (identify_refund_opportunities subscriptions) w.
Proof. apply refund_loop_state. Qed.

Example refund_requests_ex :
  let sub n d c := enrich_one (new_Subscription n c "monthly" 0 "" None d) in
  generate_refund_requests
    (fun (calls : list string) s =>
       ((calls ++ [name s])%list,
        if String.eqb (name s) "Hulu" then inr "no vendor e-mail"
        else inl tt))
    [ sub "Hulu" 2 11.99%float; sub "AWS" 90 120%float;
      sub "Figma" 3 15%float ]
    [] []
  = ([ "Hulu"; "Figma" ],
     [ Error "Failed to generate refund request for Hulu: no vendor e-mail";
       Info "Generated refund request for Figma" ]).
Proof. reflexivity. Qed.
